(** * HyP3 tutorial notebooks: the logic of the code cells

    The notebooks chain a catalog search, an on-demand processing service
    and a raster toolkit.  The cells that carry logic of their own are

    - the SBAS pairing loop (both time-series notebooks),
    - [get_common_overlap] and [clip_hyp3_products_to_common_overlap],
    - the MintPy configuration text,
    - [get_neighbors] and the cells around it in the search-parameters
      notebook.

    Each of them is embedded below as a function of the values the cell
    reads, and the properties stated for it are proved about the embedding.
    Calls that leave the notebooks (GDAL, the search package, the processing
    service) are parameters of the functions that make them.

    - [Py]: floats, exceptions, the built-ins [max] and [min], slices;
    - [Sbas]: the pairing loop;
    - [Overlap]: [get_common_overlap];
    - [Neighbors]: the search-parameters notebook;
    - [Pathlib], [Clip]: names of files and
      [clip_hyp3_products_to_common_overlap];
    - [Config]: the text written to [mintpy_config.txt]. *)

From Stdlib Require Import ZArith Lia.
From Stdlib Require Import Floats.SpecFloat Strings.Ascii.
From stdpp Require Import gmap strings list.

Local Open Scope Z_scope.

(** ** Python values and exceptions *)

Module Py.

(** The exceptions a cell can end with: [ValueError] is what the built-ins
    [max] and [min] raise on an empty sequence, [ASFSearchError] is what
    [raise_if_incomplete] raises, and [External] stands for whatever a call
    into GDAL, the search API or the processing service raises. *)
Inductive exn :=
  | ValueError (msg : string)
  | ASFSearchError (msg : string)
  | External (what : string).

(** A computation either returns a value or raises.  Nothing in the
    notebooks catches an exception, so [Raise] is final. *)
Inductive result (A : Type) :=
  | Ok (a : A)
  | Raise (e : exn).
Arguments Ok {A} a.
Arguments Raise {A} e.

#[global] Instance result_ret : MRet result := λ A, Ok.
#[global] Instance result_bind : MBind result := λ A B f m,
  match m with Ok a => f a | Raise e => Raise e end.

(** A Python [float]: an IEEE 754 double. *)
Abbreviation float := spec_float.

Definition is_nan (x : float) : bool :=
  match x with S754_nan => true | _ => false end.

(** [x <= y], [x < y] and [x > y] on floats, as propositions. *)
Definition fle (x y : float) : Prop := SFleb x y = true.
Definition flt (x y : float) : Prop := SFltb x y = true.
Definition fgt (x y : float) : Prop := flt y x.

#[global] Instance fle_dec x y : Decision (fle x y).
Proof. unfold fle. apply _. Defined.
#[global] Instance flt_dec x y : Decision (flt x y).
Proof. unfold flt. apply _. Defined.
#[global] Instance fgt_dec x y : Decision (fgt x y).
Proof. unfold fgt. apply _. Defined.

(** The double that a whole number denotes (exact up to 2^53). *)
Definition float_of_Z (z : Z) : float := binary_normalize 53 1024 z 0 false.

(** The built-in [max(iterable)]: the first item is the running maximum,
    and a later item replaces it when [item > maxitem]; an empty iterable
    raises [ValueError]. *)
Definition py_max (items : list float) : result float :=
  match items with
  | [] => Raise (ValueError "max() arg is an empty sequence")
  | first :: rest =>
      Ok (foldl (λ maxitem item, if decide (fgt item maxitem) then item else maxitem)
                first rest)
  end.

(** The built-in [min(iterable)]: a later item replaces the running minimum
    when [item < minitem]. *)
Definition py_min (items : list float) : result float :=
  match items with
  | [] => Raise (ValueError "min() arg is an empty sequence")
  | first :: rest =>
      Ok (foldl (λ minitem item, if decide (flt item minitem) then item else minitem)
                first rest)
  end.

(** [m] is a greatest, respectively least, item of [items]. *)
Definition is_maximum (m : float) (items : list float) : Prop :=
  m ∈ items ∧ ∀ x, x ∈ items → fle x m.
Definition is_minimum (m : float) (items : list float) : Prop :=
  m ∈ items ∧ ∀ x, x ∈ items → fle m x.

(** [s[-depth:]] on a list, for any integer [depth]: the start index
    [-depth] counts from the end when it is negative and is clamped to
    [0 .. len(s)]. *)
Definition slice_from_neg {A} (depth : Z) (s : list A) : list A :=
  let len := Z.of_nat (length s) in
  let start := - depth in
  let start := if decide (start < 0) then Z.max (start + len) 0 else Z.min start len in
  drop (Z.to_nat start) s.

(** *** Order facts on floats *)

Ltac cmp_cases :=
  repeat match goal with
  | |- context [Z.compare ?a ?b] => destruct (Z.compare_spec a b)
  | |- context [Pos.compare_cont Eq ?a ?b] =>
      change (Pos.compare_cont Eq a b) with (Pos.compare a b);
      destruct (Pos.compare_spec a b)
  end.

Ltac float_cases x := destruct x as [[]|[]| |[] ? ?].

Lemma fle_trans a b c : fle a b → fle b c → fle a c.
Proof.
  unfold fle, SFleb. float_cases a; float_cases b; float_cases c;
    simpl; try done; cmp_cases; simpl; try done; lia.
Qed.

Lemma not_flt_fle a b : is_nan a = false → is_nan b = false → ¬ flt a b → fle b a.
Proof.
  unfold flt, fle, SFltb, SFleb. float_cases a; float_cases b;
    simpl; try done; cmp_cases; simpl; try done; lia.
Qed.

Lemma flt_fle a b : flt a b → fle a b.
Proof. unfold flt, fle, SFltb, SFleb. by destruct (SFcompare a b) as [[]|]. Qed.

Lemma fle_refl a : is_nan a = false → fle a a.
Proof.
  unfold fle, SFleb. float_cases a; simpl; try done;
    rewrite Z.compare_refl;
    match goal with |- context [Pos.compare_cont Eq ?m ?m] =>
      change (Pos.compare_cont Eq m m) with (Pos.compare m m) end;
    by rewrite Pos.compare_refl.
Qed.

(** *** The built-ins [max] and [min] *)

Lemma foldl_max_spec (first : float) (rest : list float) :
  is_nan first = false → Forall (λ x, is_nan x = false) rest →
  let m := foldl (λ maxitem item, if decide (fgt item maxitem) then item else maxitem)
                 first rest in
  m ∈ first :: rest ∧ fle first m ∧ ∀ x, x ∈ rest → fle x m.
Proof.
  intros Hfirst Hrest. revert first Hfirst.
  induction Hrest as [|y rest Hy Hrest IH]; intros first Hfirst; simpl.
  - split_and!; [left|by apply fle_refl|]. by intros x ?%elem_of_nil.
  - destruct (decide (fgt y first)) as [Hgt|Hgt].
    + destruct (IH y Hy) as (Hin & Hle & Hall).
      split_and!; [by right| |].
      * eapply fle_trans; [by apply flt_fle|done].
      * intros x [->|?]%elem_of_cons; [done|by apply Hall].
    + destruct (IH first Hfirst) as (Hin & Hle & Hall).
      split_and!; [|done|].
      * apply elem_of_cons in Hin as [->|?]; [left|by do 2 right].
      * intros x [->|?]%elem_of_cons; [|by apply Hall].
        eapply fle_trans; [|done]. by apply not_flt_fle.
Qed.

Lemma foldl_min_spec (first : float) (rest : list float) :
  is_nan first = false → Forall (λ x, is_nan x = false) rest →
  let m := foldl (λ minitem item, if decide (flt item minitem) then item else minitem)
                 first rest in
  m ∈ first :: rest ∧ fle m first ∧ ∀ x, x ∈ rest → fle m x.
Proof.
  intros Hfirst Hrest. revert first Hfirst.
  induction Hrest as [|y rest Hy Hrest IH]; intros first Hfirst; simpl.
  - split_and!; [left|by apply fle_refl|]. by intros x ?%elem_of_nil.
  - destruct (decide (flt y first)) as [Hlt|Hlt].
    + destruct (IH y Hy) as (Hin & Hle & Hall).
      split_and!; [by right| |].
      * eapply fle_trans; [done|by apply flt_fle].
      * intros x [->|?]%elem_of_cons; [done|by apply Hall].
    + destruct (IH first Hfirst) as (Hin & Hle & Hall).
      split_and!; [|done|].
      * apply elem_of_cons in Hin as [->|?]; [left|by do 2 right].
      * intros x [->|?]%elem_of_cons; [|by apply Hall].
        eapply fle_trans; [done|]. by apply not_flt_fle.
Qed.

Lemma py_max_spec (items : list float) :
  items ≠ [] → Forall (λ x, is_nan x = false) items →
  ∃ m, py_max items = Ok m ∧ is_maximum m items.
Proof.
  destruct items as [|first rest]; [done|]. intros _ [Hfirst Hrest]%Forall_cons.
  destruct (foldl_max_spec first rest Hfirst Hrest) as (Hin & Hle & Hall).
  eexists. split; [reflexivity|]. split; [done|].
  intros x [->|?]%elem_of_cons; [done|by apply Hall].
Qed.

Lemma py_min_spec (items : list float) :
  items ≠ [] → Forall (λ x, is_nan x = false) items →
  ∃ m, py_min items = Ok m ∧ is_minimum m items.
Proof.
  destruct items as [|first rest]; [done|]. intros _ [Hfirst Hrest]%Forall_cons.
  destruct (foldl_min_spec first rest Hfirst Hrest) as (Hin & Hle & Hall).
  eexists. split; [reflexivity|]. split; [done|].
  intros x [->|?]%elem_of_cons; [done|by apply Hall].
Qed.

(** On any non-empty sequence, NaN or not, the built-ins return an item. *)
Lemma py_max_returns (items : list float) :
  items ≠ [] → ∃ m, py_max items = Ok m.
Proof. destruct items; [done|]. intros _. by eexists. Qed.

Lemma py_min_returns (items : list float) :
  items ≠ [] → ∃ m, py_min items = Ok m.
Proof. destruct items; [done|]. intros _. by eexists. Qed.

(** With a NaN among the items no comparison with it succeeds, and what
    the built-ins return depends on where it stands. *)
Example py_max_nan_first : py_max [S754_nan; float_of_Z 1] = Ok S754_nan.
Proof. reflexivity. Qed.

Example py_max_nan_last : py_max [float_of_Z 1; S754_nan] = Ok (float_of_Z 1).
Proof. reflexivity. Qed.

(** *** List comprehensions over calls that may raise *)

Lemma mapM_Ok {A B} (f : A → result B) (l : list A) (k : list B) :
  mapM f l = Ok k ↔ Forall2 (λ x y, f x = Ok y) l k.
Proof.
  revert k. induction l as [|x l IH]; intros k; simpl.
  - split.
    + intros [= <-]. constructor.
    + by intros ->%Forall2_nil_inv_l.
  - split.
    + destruct (f x) as [y|e] eqn:Hx; simpl; [|done].
      destruct (mapM f l) as [k'|e] eqn:Hl; simpl; [|done].
      intros [= <-]. constructor; [done|]. by apply IH.
    + intros (y & k' & Hx & Hl & ->)%Forall2_cons_inv_l.
      rewrite Hx. simpl. apply IH in Hl. rewrite Hl. done.
Qed.

(** The first call that raises ends the comprehension with its exception. *)
Lemma mapM_Raise {A B} (f : A → result B) (done_ todo : list A) (x : A)
    (ys : list B) (e : exn) :
  mapM f done_ = Ok ys → f x = Raise e → mapM f (done_ ++ x :: todo) = Raise e.
Proof.
  revert ys. induction done_ as [|d done_ IH]; intros ys; simpl.
  - intros _ ->. done.
  - destruct (f d) as [y|e'] eqn:Hd; simpl; [|done].
    destruct (mapM f done_) as [k|e'] eqn:Hk; simpl; [|done].
    intros _ Hx. by rewrite (IH k eq_refl Hx).
Qed.

Lemma mapM_app_Ok {A B} (f : A → result B) (l1 l2 : list A) (k : list B) :
  mapM f (l1 ++ l2) = Ok k ↔
  ∃ k1 k2, mapM f l1 = Ok k1 ∧ mapM f l2 = Ok k2 ∧ k = k1 ++ k2.
Proof.
  rewrite mapM_Ok. split.
  - intros (k1 & k2 & H1 & H2 & ->)%Forall2_app_inv_l.
    exists k1, k2. by rewrite !mapM_Ok.
  - intros (k1 & k2 & H1%mapM_Ok & H2%mapM_Ok & ->). by apply Forall2_app.
Qed.

(** A comprehension over a list cut into pieces is the comprehension over
    the pieces. *)
Lemma mapM_concat_Ok {A B} (f : A → result B) (pieces : list (list A)) (k : list B) :
  mapM f (concat pieces) = Ok k →
  ∃ ks, Forall2 (λ piece kp, mapM f piece = Ok kp) pieces ks ∧ concat ks = k.
Proof.
  revert k. induction pieces as [|piece pieces IH]; intros k; simpl.
  - intros [= <-]. by exists [].
  - intros (k1 & k2 & H1 & H2 & ->)%mapM_app_Ok.
    destruct (IH k2 H2) as (ks & Hks & <-).
    exists (k1 :: ks). split; [by constructor|done].
Qed.

(** Reading the items in another order reads the same values. *)
Lemma mapM_Permutation {A B} (f : A → result B) (l l' : list A) (k : list B) :
  l ≡ₚ l' → mapM f l = Ok k → ∃ k', mapM f l' = Ok k' ∧ k ≡ₚ k'.
Proof.
  intros Hperm. revert k.
  induction Hperm as [|x l l' _ IH|x y l|l l' l'' _ IH1 _ IH2]; intros k; simpl.
  - intros [= <-]. by exists [].
  - destruct (f x) as [b|]; simpl; [|done].
    destruct (mapM f l) as [kl|] eqn:Hl; simpl; [|done].
    intros [= <-]. destruct (IH kl eq_refl) as (kl' & -> & Hkl).
    exists (b :: kl'). split; [done|]. by constructor.
  - destruct (f y) as [b|]; simpl; [|done].
    destruct (f x) as [a|]; simpl; [|done].
    destruct (mapM f l) as [kl|]; simpl; [|done].
    intros [= <-]. exists (a :: b :: kl). split; [done|]. constructor.
  - intros Hk. destruct (IH1 k Hk) as (k' & Hk' & Hp1).
    destruct (IH2 k' Hk') as (k'' & Hk'' & Hp2).
    exists k''. split; [done|]. by etrans.
Qed.

Lemma fle_flt_trans a b c : fle a b → flt b c → flt a c.
Proof.
  unfold fle, flt, SFleb, SFltb. float_cases a; float_cases b; float_cases c;
    simpl; try done; cmp_cases; simpl; try done; lia.
Qed.

Lemma flt_fle_trans a b c : flt a b → fle b c → flt a c.
Proof.
  unfold fle, flt, SFleb, SFltb. float_cases a; float_cases b; float_cases c;
    simpl; try done; cmp_cases; simpl; try done; lia.
Qed.

Lemma flt_not_fle a b : flt a b → ¬ fle b a.
Proof.
  unfold fle, flt, SFleb, SFltb. float_cases a; float_cases b;
    simpl; try done; cmp_cases; simpl; try done; lia.
Qed.

(** At a positive depth [s[-depth:]] keeps the last [depth] items. *)
Lemma slice_from_neg_positive {A} (depth : Z) (s : list A) :
  0 < depth →
  slice_from_neg depth s = drop (length s - Z.to_nat depth) s.
Proof.
  intros Hd. unfold slice_from_neg. destruct (decide (- depth < 0)); [|lia].
  f_equal. lia.
Qed.

End Py.

(** ** The SBAS pairing loop *)

Module Sbas.

(** A row of the [stack] data frame.  The loop reads two columns only:
    [sceneName] and [temporalBaseline], a whole number of days; day counts
    lie far inside the range of the column's 64-bit integers, where the
    subtraction of the mask is the subtraction of [Z]. *)
Record scene := Scene { sceneName : string; temporalBaseline : Z }.

(** The row mask of the inner [stack.loc[...]]:
    [(stack.sceneName != reference)
     & (stack.temporalBaseline - rt <= max_temporal_baseline)
     & (stack.temporalBaseline - rt > 0)]. *)
Definition is_secondary (reference : string) (rt max_temporal_baseline : Z)
    (row : scene) : Prop :=
  sceneName row ≠ reference
  ∧ temporalBaseline row - rt ≤ max_temporal_baseline
  ∧ temporalBaseline row - rt > 0.

#[global] Instance is_secondary_dec reference rt mtb row :
  Decision (is_secondary reference rt mtb row).
Proof. unfold is_secondary. apply _. Defined.

(** [secondaries = stack.loc[mask]]: the rows that pass, in table order. *)
Definition secondaries (stack : list scene) (reference : string)
    (rt max_temporal_baseline : Z) : list scene :=
  filter (is_secondary reference rt max_temporal_baseline) stack.

(** [sbas_pairs.add(p)] on a Python [set]. *)
Definition set_add `{Countable A} (p : A) (s : gset A) : gset A := {[ p ]} ∪ s.

(** The body of the outer loop for one [(reference, rt)] row:
    [for secondary in secondaries.sceneName: sbas_pairs.add((reference, secondary))]. *)
Definition add_secondaries (stack : list scene) (max_temporal_baseline : Z)
    (sbas_pairs : gset (string * string)) (row : scene) : gset (string * string) :=
  foldl (λ acc secondary, set_add (sceneName row, sceneName secondary) acc)
        sbas_pairs
        (secondaries stack (sceneName row) (temporalBaseline row) max_temporal_baseline).

(** The whole cell: [sbas_pairs = set()], then the outer loop over
    [stack.loc[::-1, ['sceneName', 'temporalBaseline']]], the rows from last
    to first. *)
Definition sbas_pairs (stack : list scene) (max_temporal_baseline : Z)
    : gset (string * string) :=
  foldl (add_secondaries stack max_temporal_baseline) ∅ (reverse stack).

(** [for reference, secondary in sbas_pairs]: the pairs one job each is
    submitted for. *)
Definition submitted_pairs (stack : list scene) (max_temporal_baseline : Z)
    : list (string * string) :=
  elements (sbas_pairs stack max_temporal_baseline).

(** A name carries one baseline in the table: rows that share a
    [sceneName] share the [temporalBaseline]. *)
Definition baseline_by_name (stack : list scene) : Prop :=
  Forall (λ a, Forall (λ b, sceneName a = sceneName b →
                            temporalBaseline a = temporalBaseline b) stack) stack.

#[global] Instance baseline_by_name_dec stack : Decision (baseline_by_name stack).
Proof. unfold baseline_by_name. apply _. Defined.

(** The table of the worked scenario, and the limit it uses. *)
Definition scenario : list scene :=
  [Scene "A" 0; Scene "B" 10; Scene "C" 20; Scene "D" 50].

(** A table in which the name ["A"] occurs on two rows. *)
Definition repeated_name : list scene :=
  [Scene "A" 0; Scene "B" 10; Scene "A" 20].

(** *** What the loops add *)

(** Membership in a list that is written out. *)
Ltac in_rows :=
  repeat first [apply list_elem_of_here | apply list_elem_of_further].

Lemma elem_of_set_add `{Countable A} (p q : A) (s : gset A) :
  q ∈ set_add p s ↔ q = p ∨ q ∈ s.
Proof. unfold set_add. set_solver. Qed.

Lemma elem_of_foldl_set_add `{Countable A} {B} (f : B → A) (l : list B)
    (acc : gset A) (p : A) :
  p ∈ foldl (λ acc x, set_add (f x) acc) acc l ↔ p ∈ acc ∨ ∃ x, x ∈ l ∧ p = f x.
Proof.
  revert acc. induction l as [|y l IH]; intros acc; simpl.
  - split; [by left|]. intros [?|(x & Hx & _)]; [done|]. by apply elem_of_nil in Hx.
  - rewrite IH, elem_of_set_add. split.
    + intros [[->|?]|(x & Hx & ->)].
      * right. exists y. split; [left|done].
      * by left.
      * right. exists x. split; [by right|done].
    + intros [?|(x & [->|Hx]%elem_of_cons & ->)].
      * left. by right.
      * left. by left.
      * right. by exists x.
Qed.

Lemma elem_of_add_secondaries stack mtb acc row p :
  p ∈ add_secondaries stack mtb acc row ↔
  p ∈ acc ∨ ∃ s, s ∈ stack
               ∧ is_secondary (sceneName row) (temporalBaseline row) mtb s
               ∧ p = (sceneName row, sceneName s).
Proof.
  unfold add_secondaries, secondaries.
  rewrite (elem_of_foldl_set_add (λ s, (sceneName row, sceneName s))).
  split.
  - intros [?|(s & [? ?]%list_elem_of_filter & ->)]; [by left|].
    right. by exists s.
  - intros [?|(s & ? & ? & ->)]; [by left|].
    right. exists s. split; [|done]. by apply list_elem_of_filter.
Qed.

Lemma elem_of_foldl_add_secondaries stack mtb rows acc p :
  p ∈ foldl (add_secondaries stack mtb) acc rows ↔
  p ∈ acc ∨ ∃ r s, r ∈ rows ∧ s ∈ stack
                 ∧ is_secondary (sceneName r) (temporalBaseline r) mtb s
                 ∧ p = (sceneName r, sceneName s).
Proof.
  revert acc. induction rows as [|row rows IH]; intros acc; simpl.
  - split; [by left|]. intros [?|(r & s & Hr & _)]; [done|].
    by apply elem_of_nil in Hr.
  - rewrite IH, elem_of_add_secondaries. split.
    + intros [[?|(s & ? & ? & ->)]|(r & s & ? & ? & ? & ->)].
      * by left.
      * right. exists row, s. split; [left|done].
      * right. exists r, s. split; [by right|done].
    + intros [?|(r & s & [->|?]%elem_of_cons & ? & ? & ->)].
      * left. by left.
      * left. right. by exists s.
      * right. by exists r, s.
Qed.

(** The pairs of the set are the name pairs of a reference row and a row
    that passes its mask. *)
Lemma elem_of_sbas_pairs stack mtb rn sn :
  (rn, sn) ∈ sbas_pairs stack mtb ↔
  ∃ r s, r ∈ stack ∧ s ∈ stack ∧ sceneName r = rn ∧ sceneName s = sn
       ∧ rn ≠ sn
       ∧ 0 < temporalBaseline s - temporalBaseline r ≤ mtb.
Proof.
  unfold sbas_pairs. rewrite elem_of_foldl_add_secondaries. split.
  - intros [H|(r & s & Hr & Hs & (Hne & Hle & Hgt) & Heq)].
    + by apply not_elem_of_empty in H.
    + rewrite elem_of_reverse in Hr. injection Heq as -> ->.
      exists r, s. split_and!; try done; lia.
  - intros (r & s & Hr & Hs & <- & <- & Hne & Hlt & Hle).
    right. exists r, s. rewrite elem_of_reverse.
    unfold is_secondary. split_and!; try done; lia.
Qed.

Lemma baseline_by_name_eq stack a b :
  baseline_by_name stack → a ∈ stack → b ∈ stack →
  sceneName a = sceneName b → temporalBaseline a = temporalBaseline b.
Proof.
  unfold baseline_by_name. rewrite Forall_forall. intros H Ha Hb.
  specialize (H a Ha). rewrite Forall_forall in H. by apply H.
Qed.

(** Tables whose names are pairwise distinct are a special case. *)
Lemma NoDup_names_baseline_by_name stack :
  NoDup (sceneName <$> stack) → baseline_by_name stack.
Proof.
  intros Hnd. unfold baseline_by_name.
  apply Forall_forall. intros a Ha. apply Forall_forall. intros b Hb Hab.
  apply list_elem_of_lookup in Ha as [i Hi]. apply list_elem_of_lookup in Hb as [j Hj].
  assert (i = j) as ->; [|congruence].
  eapply NoDup_lookup; [exact Hnd| |]; rewrite list_lookup_fmap.
  - by rewrite Hi.
  - rewrite Hj. simpl. by rewrite Hab.
Qed.

(** *** The stated properties *)

(** C1.  Soundness of the pairing loop.  Every pair [(reference, secondary)]
    of [sbas_pairs] has two different names and was formed from a reference
    row and a secondary row of the table with
    [0 < secondary.temporalBaseline - reference.temporalBaseline
       <= max_temporal_baseline]; where a name carries one baseline in the
    table, every row bearing the secondary's name and every row bearing the
    reference's name are that far apart; and the pairs, as the submission
    loop enumerates them, contain no pair twice. *)
Theorem sbas_pairs_sound (stack : list scene) (max_temporal_baseline : Z) :
  (∀ reference secondary,
      (reference, secondary) ∈ sbas_pairs stack max_temporal_baseline →
      reference ≠ secondary
      ∧ (∃ r s, r ∈ stack ∧ s ∈ stack
              ∧ sceneName r = reference ∧ sceneName s = secondary
              ∧ 0 < temporalBaseline s - temporalBaseline r ≤ max_temporal_baseline)
      ∧ (baseline_by_name stack →
         ∀ r s, r ∈ stack → s ∈ stack →
                sceneName r = reference → sceneName s = secondary →
                0 < temporalBaseline s - temporalBaseline r ≤ max_temporal_baseline))
  ∧ NoDup (submitted_pairs stack max_temporal_baseline).
Proof.
  split; [|apply NoDup_elements].
  intros reference secondary
    (r & s & Hr & Hs & Hrn & Hsn & Hne & Hb)%elem_of_sbas_pairs.
  split_and!; [done|by exists r, s|].
  intros Hname r' s' Hr' Hs' Hrn' Hsn'.
  rewrite (baseline_by_name_eq stack r' r), (baseline_by_name_eq stack s' s);
    [done|done|done|done|congruence|done|done|done|congruence].
Qed.

Lemma sbas_pairs_sound_witness :
  ("A", "C") ∈ sbas_pairs scenario 24
  ∧ baseline_by_name scenario
  ∧ "A" ≠ "C"
  ∧ 0 < temporalBaseline (Scene "C" 20) - temporalBaseline (Scene "A" 0) ≤ 24.
Proof.
  assert (("A", "C") ∈ sbas_pairs scenario 24) as Hin by compute_done.
  assert (baseline_by_name scenario) as Hname by compute_done.
  destruct (proj1 (sbas_pairs_sound scenario 24) "A" "C" Hin) as (Hne & _ & Hall).
  split; [exact Hin|]. split; [exact Hname|]. split; [exact Hne|].
  apply (Hall Hname (Scene "A" 0) (Scene "C" 20)); first [reflexivity | in_rows].
Defined.

(** C2.  Completeness of the pairing loop.  For each reference row of the
    table and every row of another scene whose temporal baseline exceeds the
    reference's by an amount in (0, max_temporal_baseline], the set contains
    the pair (reference name, secondary name). *)
Theorem sbas_pairs_complete (stack : list scene) (max_temporal_baseline : Z)
    (r s : scene) :
  r ∈ stack → s ∈ stack →
  sceneName s ≠ sceneName r →
  0 < temporalBaseline s - temporalBaseline r ≤ max_temporal_baseline →
  (sceneName r, sceneName s) ∈ sbas_pairs stack max_temporal_baseline.
Proof.
  intros Hr Hs Hne Hb. apply elem_of_sbas_pairs.
  exists r, s. split_and!; try done; lia.
Qed.

Lemma sbas_pairs_complete_witness : ("B", "C") ∈ sbas_pairs scenario 24.
Proof.
  apply (sbas_pairs_complete scenario 24 (Scene "B" 10) (Scene "C" 20)).
  - in_rows.
  - in_rows.
  - simpl. discriminate.
  - simpl. lia.
Defined.

Lemma scenario_pairs_evaluated :
  sbas_pairs scenario 24 = {[ ("A", "B"); ("A", "C"); ("B", "C") ]}
  ∧ sbas_pairs repeated_name 24 = {[ ("A", "B"); ("B", "A") ]}.
Proof. split; vm_compute; reflexivity. Qed.

(** C3.  The worked scenario.  With baselines A:0, B:10, C:20, D:50 and
    max_temporal_baseline = 24 the loop produces exactly
    {(A,B), (A,C), (B,C)}; none of (A,D), (B,D), (C,D) is in the set. *)
Theorem sbas_pairs_scenario :
  sbas_pairs scenario 24 = {[ ("A", "B"); ("A", "C"); ("B", "C") ]}
  ∧ (("A", "D") ∉ sbas_pairs scenario 24)
  ∧ (("B", "D") ∉ sbas_pairs scenario 24)
  ∧ (("C", "D") ∉ sbas_pairs scenario 24).
Proof.
  rewrite (proj1 scenario_pairs_evaluated).
  split_and!; [done|compute_done..].
Qed.

(** The table order does not matter for the scenario: the rows may come in
    any order. *)
Lemma scenario_rows_in_any_order (stack : list scene) :
  stack ≡ₚ scenario →
  sbas_pairs stack 24 = {[ ("A", "B"); ("A", "C"); ("B", "C") ]}.
Proof.
  intros Hp. rewrite <- (proj1 scenario_pairs_evaluated).
  apply set_eq. intros [rn sn]. rewrite !elem_of_sbas_pairs.
  by setoid_rewrite Hp.
Qed.

(** The set holds names, so the orientation is a property of scenes only
    where a name stands for one row's baseline.  A table that gave the name
    A two baselines, A:0, B:10, A:20, would yield (A,B) from rows A:0 and
    B:10 and (B,A) from rows B:10 and A:20; scene names of the catalog carry
    the acquisition time, so the search does not produce such a table. *)
Lemma sbas_pairs_both_orientations :
  ("A", "B") ∈ sbas_pairs repeated_name 24
  ∧ ("B", "A") ∈ sbas_pairs repeated_name 24.
Proof. split; compute_done. Qed.

(** C9.  Orientation of the pair set.  Every pair of [sbas_pairs] was
    formed from a reference row whose temporalBaseline is strictly less than
    that of the secondary row; and with each scene name carrying one
    temporalBaseline in the table, as the claim takes it when it speaks of
    the reference's temporalBaseline (in particular when the names are
    pairwise distinct, [NoDup_names_baseline_by_name]), the reference's
    temporalBaseline is strictly less than the secondary's for every pair,
    and the set never holds both (r, s) and (s, r). *)
Theorem sbas_pairs_oriented (stack : list scene) (max_temporal_baseline : Z) :
  (∀ reference secondary,
      (reference, secondary) ∈ sbas_pairs stack max_temporal_baseline →
      ∃ r s, r ∈ stack ∧ s ∈ stack
           ∧ sceneName r = reference ∧ sceneName s = secondary
           ∧ temporalBaseline r < temporalBaseline s)
  ∧ (baseline_by_name stack →
     (∀ r s, r ∈ stack → s ∈ stack →
             (sceneName r, sceneName s) ∈ sbas_pairs stack max_temporal_baseline →
             temporalBaseline r < temporalBaseline s)
     ∧ (∀ r s : string,
             ¬ ((r, s) ∈ sbas_pairs stack max_temporal_baseline
                ∧ (s, r) ∈ sbas_pairs stack max_temporal_baseline))).
Proof.
  split.
  - intros reference secondary
      (r & s & Hr & Hs & Hrn & Hsn & _ & Hb)%elem_of_sbas_pairs.
    exists r, s. split_and!; try done; lia.
  - intros Hname.
    assert (∀ r s, r ∈ stack → s ∈ stack →
              (sceneName r, sceneName s) ∈ sbas_pairs stack max_temporal_baseline →
              temporalBaseline r < temporalBaseline s) as Hord.
    { intros r s Hr Hs
        (r' & s' & Hr' & Hs' & Hrn & Hsn & _ & Hb)%elem_of_sbas_pairs.
      rewrite <- (baseline_by_name_eq stack r' r), <- (baseline_by_name_eq stack s' s);
        [lia|done..]. }
    split; [exact Hord|].
    intros rn sn [H1 H2].
    pose proof H1 as (r & s & Hr & Hs & <- & <- & _)%elem_of_sbas_pairs.
    pose proof (Hord r s Hr Hs H1). pose proof (Hord s r Hs Hr H2). lia.
Qed.

Lemma sbas_pairs_oriented_witness :
  baseline_by_name scenario
  ∧ ("A", "B") ∈ sbas_pairs scenario 24
  ∧ temporalBaseline (Scene "A" 0) < temporalBaseline (Scene "B" 10)
  ∧ ¬ (("A", "B") ∈ sbas_pairs scenario 24 ∧ ("B", "A") ∈ sbas_pairs scenario 24).
Proof.
  assert (baseline_by_name scenario) as Hname by compute_done.
  assert (("A", "B") ∈ sbas_pairs scenario 24) as Hin by compute_done.
  destruct (proj2 (sbas_pairs_oriented scenario 24) Hname) as [Hord Hanti].
  split; [exact Hname|]. split; [exact Hin|]. split; [|apply Hanti].
  apply (Hord (Scene "A" 0) (Scene "B" 10)); [in_rows|in_rows|exact Hin].
Defined.

(** *** Further properties of the loop *)

(** The pairs depend on which rows the table holds, not on their order nor
    on how often a row is repeated; in particular the reversal of the outer
    loop has no effect on the result. *)
Lemma sbas_pairs_same_rows (stack stack' : list scene) (max_temporal_baseline : Z) :
  (∀ row, row ∈ stack ↔ row ∈ stack') →
  sbas_pairs stack max_temporal_baseline = sbas_pairs stack' max_temporal_baseline.
Proof.
  intros Hrows. apply set_eq. intros [rn sn]. rewrite !elem_of_sbas_pairs.
  split; intros (r & s & Hr & Hs & H); exists r, s;
    (split; [by apply Hrows|split; [by apply Hrows|done]]).
Qed.

Lemma sbas_pairs_same_rows_witness :
  sbas_pairs (Scene "D" 50 :: reverse scenario) 24 = sbas_pairs scenario 24.
Proof.
  apply sbas_pairs_same_rows. intros row.
  change (reverse scenario)
    with [Scene "D" 50; Scene "C" 20; Scene "B" 10; Scene "A" 0].
  unfold scenario. rewrite !elem_of_cons, !elem_of_nil. tauto.
Defined.

(** More rows or a larger limit only add pairs. *)
Lemma sbas_pairs_mono (stack stack' : list scene) (m m' : Z) :
  (∀ row, row ∈ stack → row ∈ stack') → m ≤ m' →
  sbas_pairs stack m ⊆ sbas_pairs stack' m'.
Proof.
  intros Hrows Hm [rn sn]. rewrite !elem_of_sbas_pairs.
  intros (r & s & Hr & Hs & Hrn & Hsn & Hne & Hb).
  exists r, s. split_and!; try done; try (by apply Hrows); lia.
Qed.

Lemma sbas_pairs_mono_witness :
  sbas_pairs (take 3 scenario) 24 ⊆ sbas_pairs scenario 37.
Proof.
  apply sbas_pairs_mono; [|lia].
  intros row Hrow. by apply (subseteq_take 3 scenario).
Defined.

(** Nothing is paired when the limit is not positive, and nothing when the
    table has fewer than two rows. *)
Lemma sbas_pairs_empty (stack : list scene) (max_temporal_baseline : Z) :
  (max_temporal_baseline ≤ 0 → sbas_pairs stack max_temporal_baseline = ∅)
  ∧ ((length stack ≤ 1)%nat → sbas_pairs stack max_temporal_baseline = ∅).
Proof.
  split; intros H; apply set_eq; intros [rn sn];
    rewrite elem_of_sbas_pairs; (split; [|by intros ?%not_elem_of_empty]).
  - intros (r & s & _ & _ & _ & _ & _ & Hb). lia.
  - intros (r & s & Hr & Hs & Hrn & Hsn & Hne & _).
    destruct stack as [|row [|row' stack]]; simpl in H; [|
      apply list_elem_of_singleton in Hr, Hs; congruence|lia].
    by apply elem_of_nil in Hr.
Qed.

Lemma sbas_pairs_empty_witness :
  sbas_pairs scenario 0 = ∅ ∧ sbas_pairs [Scene "A" 0] 24 = ∅.
Proof.
  split.
  - apply (proj1 (sbas_pairs_empty scenario 0)). lia.
  - apply (proj2 (sbas_pairs_empty [Scene "A" 0] 24)). simpl. lia.
Defined.

End Sbas.

(** ** The common overlap of the downloaded rasters *)

Module Overlap.
Import Py.

(** The ['cornerCoordinates'] of [gdal.Info(..., format='json')].  The
    function reads the ['upperLeft'] and ['lowerRight'] corners, each an
    [[x, y]] pair. *)
Record cornerCoordinates := CornerCoordinates {
  upperLeft : float * float;
  lowerRight : float * float
}.

Definition ul_x (corner : cornerCoordinates) : float := (upperLeft corner).1.
Definition ul_y (corner : cornerCoordinates) : float := (upperLeft corner).2.
Definition lr_x (corner : cornerCoordinates) : float := (lowerRight corner).1.
Definition lr_y (corner : cornerCoordinates) : float := (lowerRight corner).2.

(** All four coordinates that are read are numbers (none is a NaN). *)
Definition numeric (corner : cornerCoordinates) : Prop :=
  is_nan (ul_x corner) = false ∧ is_nan (ul_y corner) = false
  ∧ is_nan (lr_x corner) = false ∧ is_nan (lr_y corner) = false.

#[global] Instance numeric_dec corner : Decision (numeric corner).
Proof. unfold numeric. apply _. Defined.

(** The point [(px, py)] lies in the bounding box of a raster: north is up,
    so [y] runs from the lower-right corner up to the upper-left one. *)
Definition in_raster (corner : cornerCoordinates) (px py : float) : Prop :=
  fle (ul_x corner) px ∧ fle px (lr_x corner)
  ∧ fle (lr_y corner) py ∧ fle py (ul_y corner).

(** The same for a window given as [[ulx, uly, lrx, lry]]. *)
Definition in_window (window : list float) (px py : float) : Prop :=
  match window with
  | [ulx; uly; lrx; lry] => fle ulx px ∧ fle px lrx ∧ fle lry py ∧ fle py uly
  | _ => False
  end.

(** What it means for a window to be the intersection of the bounding boxes
    of [corners]. *)
Definition is_common_overlap (corners : list cornerCoordinates)
    (window : list float) : Prop :=
  ∃ ulx uly lrx lry,
    window = [ulx; uly; lrx; lry]
    ∧ is_maximum ulx (ul_x <$> corners)
    ∧ is_minimum uly (ul_y <$> corners)
    ∧ is_minimum lrx (lr_x <$> corners)
    ∧ is_maximum lry (lr_y <$> corners)
    ∧ ∀ px py, in_window window px py ↔ ∀ corner, corner ∈ corners → in_raster corner px py.

Section get_common_overlap.

(** [gdal.Info(str(dem), format='json')['cornerCoordinates']]: GDAL opens
    the file and reports its corners, or the expression raises when the file
    is not a raster it can read. *)
Variable gdal_Info : string → result cornerCoordinates.

(** [[gdal.Info(...)['cornerCoordinates'] for dem in file_list]]. *)
Definition read_corners (file_list : list string) : result (list cornerCoordinates) :=
  mapM gdal_Info file_list.

Definition get_common_overlap (file_list : list string) : result (list float) :=
  corners ← read_corners file_list;
  ulx ← py_max (ul_x <$> corners);
  uly ← py_min (ul_y <$> corners);
  lrx ← py_min (lr_x <$> corners);
  lry ← py_max (lr_y <$> corners);
  mret [ulx; uly; lrx; lry].

End get_common_overlap.

(** Two rasters for the examples: 10 x 10 boxes, the second shifted by 5
    east and 5 north. *)
Definition box (ulx uly lrx lry : Z) : cornerCoordinates :=
  CornerCoordinates (float_of_Z ulx, float_of_Z uly) (float_of_Z lrx, float_of_Z lry).

Definition two_rasters (file : string) : result cornerCoordinates :=
  if decide (file = "a_dem.tif") then Ok (box 0 10 10 0)
  else if decide (file = "b_dem.tif") then Ok (box 5 15 15 5)
  else Raise (External "not recognized as being in a supported file format").

(** Two rasters that lie apart, the second 10 east of the first. *)
Definition rasters_apart (file : string) : result cornerCoordinates :=
  if decide (file = "west_dem.tif") then Ok (box 0 10 10 0)
  else if decide (file = "east_dem.tif") then Ok (box 20 10 30 0)
  else Raise (External "not recognized as being in a supported file format").

(** *** The stated properties *)

Lemma Forall_numeric_column (corners : list cornerCoordinates)
    (column : cornerCoordinates → float) :
  (∀ corner, numeric corner → is_nan (column corner) = false) →
  Forall numeric corners → Forall (λ x, is_nan x = false) (column <$> corners).
Proof.
  intros Hcol Hnum. apply Forall_fmap. eapply Forall_impl; [exact Hnum|].
  intros corner ?. by apply Hcol.
Qed.

Lemma fmap_nonempty {A B} (f : A → B) (l : list A) : l ≠ [] → f <$> l ≠ [].
Proof. by destruct l. Qed.

Lemma read_corners_nonempty gdal_Info file_list corners :
  file_list ≠ [] → read_corners gdal_Info file_list = Ok corners → corners ≠ [].
Proof.
  intros Hne Hread%mapM_Ok ->. apply Forall2_nil_inv_r in Hread. done.
Qed.

(** The window of four extrema is the intersection of the boxes. *)
Lemma extrema_in_window corners ulx uly lrx lry px py :
  is_maximum ulx (ul_x <$> corners) → is_minimum uly (ul_y <$> corners) →
  is_minimum lrx (lr_x <$> corners) → is_maximum lry (lr_y <$> corners) →
  in_window [ulx; uly; lrx; lry] px py ↔
  ∀ corner, corner ∈ corners → in_raster corner px py.
Proof.
  intros [Hulx Hulx'] [Huly Huly'] [Hlrx Hlrx'] [Hlry Hlry']. simpl. split.
  - intros (H1 & H2 & H3 & H4) corner Hin. unfold in_raster. split_and!.
    + eapply fle_trans; [|exact H1]. apply Hulx'. by apply list_elem_of_fmap_2.
    + eapply fle_trans; [exact H2|]. apply Hlrx'. by apply list_elem_of_fmap_2.
    + eapply fle_trans; [|exact H3]. apply Hlry'. by apply list_elem_of_fmap_2.
    + eapply fle_trans; [exact H4|]. apply Huly'. by apply list_elem_of_fmap_2.
  - intros Hall.
    apply list_elem_of_fmap in Hulx as (c1 & -> & Hc1).
    apply list_elem_of_fmap in Huly as (c2 & -> & Hc2).
    apply list_elem_of_fmap in Hlrx as (c3 & -> & Hc3).
    apply list_elem_of_fmap in Hlry as (c4 & -> & Hc4).
    split_and!.
    + apply (Hall c1 Hc1).
    + apply (Hall c3 Hc3).
    + apply (Hall c4 Hc4).
    + apply (Hall c2 Hc2).
Qed.

(** C4.  [get_common_overlap] computes the intersection of the bounding
    boxes.  For a non-empty list of rasters whose corner coordinates are
    numbers it returns [[ulx, uly, lrx, lry]] with ulx the maximum of the
    upper-left x's, uly the minimum of the upper-left y's, lrx the minimum of
    the lower-right x's and lry the maximum of the lower-right y's; a point
    lies in the returned window exactly when it lies in the bounding box of
    every input raster. *)
Theorem get_common_overlap_intersection
    (gdal_Info : string → result cornerCoordinates)
    (file_list : list string) (corners : list cornerCoordinates) :
  file_list ≠ [] →
  read_corners gdal_Info file_list = Ok corners →
  Forall numeric corners →
  ∃ window, get_common_overlap gdal_Info file_list = Ok window
          ∧ is_common_overlap corners window.
Proof.
  intros Hne Hread Hnum.
  pose proof (read_corners_nonempty _ _ _ Hne Hread) as Hcs.
  destruct (py_max_spec (ul_x <$> corners)) as (ulx & Eulx & Hulx);
    [by apply fmap_nonempty|apply Forall_numeric_column; [by intros ? (?&?&?&?)|done]|].
  destruct (py_min_spec (ul_y <$> corners)) as (uly & Euly & Huly);
    [by apply fmap_nonempty|apply Forall_numeric_column; [by intros ? (?&?&?&?)|done]|].
  destruct (py_min_spec (lr_x <$> corners)) as (lrx & Elrx & Hlrx);
    [by apply fmap_nonempty|apply Forall_numeric_column; [by intros ? (?&?&?&?)|done]|].
  destruct (py_max_spec (lr_y <$> corners)) as (lry & Elry & Hlry);
    [by apply fmap_nonempty|apply Forall_numeric_column; [by intros ? (?&?&?&?)|done]|].
  exists [ulx; uly; lrx; lry]. split.
  - unfold get_common_overlap. rewrite Hread. simpl.
    rewrite Eulx. simpl. rewrite Euly. simpl. rewrite Elrx. simpl.
    rewrite Elry. done.
  - exists ulx, uly, lrx, lry. split_and!; try done.
    intros px py. by apply extrema_in_window.
Qed.

Lemma get_common_overlap_intersection_witness :
  ∃ window,
    get_common_overlap two_rasters ["a_dem.tif"; "b_dem.tif"] = Ok window
    ∧ is_common_overlap [box 0 10 10 0; box 5 15 15 5] window.
Proof.
  apply (get_common_overlap_intersection two_rasters ["a_dem.tif"; "b_dem.tif"]).
  - discriminate.
  - reflexivity.
  - compute_done.
Defined.

(** C8.  [get_common_overlap] needs a non-empty list.  On the empty list
    the first [max] over an empty sequence raises [ValueError] and nothing is
    returned; on every non-empty list of rasters the function returns a list
    of four coordinates. *)
Theorem get_common_overlap_nonempty
    (gdal_Info : string → result cornerCoordinates) :
  get_common_overlap gdal_Info [] = Raise (ValueError "max() arg is an empty sequence")
  ∧ ∀ file_list corners,
      file_list ≠ [] →
      read_corners gdal_Info file_list = Ok corners →
      ∃ window, get_common_overlap gdal_Info file_list = Ok window
              ∧ length window = 4%nat.
Proof.
  split; [done|]. intros file_list corners Hne Hread.
  pose proof (read_corners_nonempty _ _ _ Hne Hread) as Hcs.
  destruct (py_max_returns (ul_x <$> corners)) as (ulx & Eulx);
    [by apply fmap_nonempty|].
  destruct (py_min_returns (ul_y <$> corners)) as (uly & Euly);
    [by apply fmap_nonempty|].
  destruct (py_min_returns (lr_x <$> corners)) as (lrx & Elrx);
    [by apply fmap_nonempty|].
  destruct (py_max_returns (lr_y <$> corners)) as (lry & Elry);
    [by apply fmap_nonempty|].
  exists [ulx; uly; lrx; lry]. split; [|done].
  unfold get_common_overlap. rewrite Hread. simpl.
  rewrite Eulx. simpl. rewrite Euly. simpl. rewrite Elrx. simpl.
  rewrite Elry. done.
Qed.

Lemma get_common_overlap_nonempty_witness :
  ∃ window,
    get_common_overlap two_rasters ["a_dem.tif"; "b_dem.tif"] = Ok window
    ∧ length window = 4%nat.
Proof.
  apply (proj2 (get_common_overlap_nonempty two_rasters)
               ["a_dem.tif"; "b_dem.tif"] [box 0 10 10 0; box 5 15 15 5]).
  - discriminate.
  - reflexivity.
Defined.

(** The window of the two example rasters, evaluated. *)
Example get_common_overlap_two_rasters :
  get_common_overlap two_rasters ["a_dem.tif"; "b_dem.tif"]
  = Ok [float_of_Z 5; float_of_Z 10; float_of_Z 10; float_of_Z 5].
Proof. reflexivity. Qed.

(** A file GDAL cannot read ends the call with GDAL's exception. *)
Example get_common_overlap_unreadable :
  get_common_overlap two_rasters ["a_dem.tif"; "notes.txt"]
  = Raise (External "not recognized as being in a supported file format").
Proof. reflexivity. Qed.

(** *** Further properties of [get_common_overlap] *)

(** The window of the four extrema, as a lemma to build on. *)
Lemma get_common_overlap_extrema
    (gdal_Info : string → result cornerCoordinates)
    (file_list : list string) (corners : list cornerCoordinates) :
  file_list ≠ [] →
  read_corners gdal_Info file_list = Ok corners →
  Forall numeric corners →
  ∃ ulx uly lrx lry,
    get_common_overlap gdal_Info file_list = Ok [ulx; uly; lrx; lry]
    ∧ is_maximum ulx (ul_x <$> corners) ∧ is_minimum uly (ul_y <$> corners)
    ∧ is_minimum lrx (lr_x <$> corners) ∧ is_maximum lry (lr_y <$> corners).
Proof.
  intros Hne Hread Hnum.
  pose proof (read_corners_nonempty _ _ _ Hne Hread) as Hcs.
  destruct (py_max_spec (ul_x <$> corners)) as (ulx & Eulx & Hulx);
    [by apply fmap_nonempty|apply Forall_numeric_column; [by intros ? (?&?&?&?)|done]|].
  destruct (py_min_spec (ul_y <$> corners)) as (uly & Euly & Huly);
    [by apply fmap_nonempty|apply Forall_numeric_column; [by intros ? (?&?&?&?)|done]|].
  destruct (py_min_spec (lr_x <$> corners)) as (lrx & Elrx & Hlrx);
    [by apply fmap_nonempty|apply Forall_numeric_column; [by intros ? (?&?&?&?)|done]|].
  destruct (py_max_spec (lr_y <$> corners)) as (lry & Elry & Hlry);
    [by apply fmap_nonempty|apply Forall_numeric_column; [by intros ? (?&?&?&?)|done]|].
  exists ulx, uly, lrx, lry. split_and!; try done.
  unfold get_common_overlap. rewrite Hread. simpl.
  rewrite Eulx. simpl. rewrite Euly. simpl. rewrite Elrx. simpl.
  rewrite Elry. done.
Qed.

(** The first file GDAL cannot read ends the call with GDAL's exception:
    no window is returned, and the files after it are not looked at. *)
Lemma get_common_overlap_raises
    (gdal_Info : string → result cornerCoordinates)
    (before after : list string) (file : string)
    (corners : list cornerCoordinates) (e : exn) :
  read_corners gdal_Info before = Ok corners →
  gdal_Info file = Raise e →
  get_common_overlap gdal_Info (before ++ file :: after) = Raise e.
Proof.
  intros Hbefore Hfile. unfold get_common_overlap, read_corners.
  by rewrite (mapM_Raise gdal_Info before after file corners e).
Qed.

Lemma get_common_overlap_raises_witness :
  get_common_overlap two_rasters ["a_dem.tif"; "notes.txt"; "b_dem.tif"]
  = Raise (External "not recognized as being in a supported file format").
Proof.
  apply (get_common_overlap_raises two_rasters ["a_dem.tif"] ["b_dem.tif"] "notes.txt"
           [box 0 10 10 0]); reflexivity.
Defined.

(** The order of the files does not matter: listed in another order, the
    same rasters give a window that holds the same points. *)
Lemma get_common_overlap_any_order
    (gdal_Info : string → result cornerCoordinates)
    (file_list file_list' : list string) (corners : list cornerCoordinates) :
  file_list ≡ₚ file_list' →
  file_list ≠ [] →
  read_corners gdal_Info file_list = Ok corners →
  Forall numeric corners →
  ∃ window window',
    get_common_overlap gdal_Info file_list = Ok window
    ∧ get_common_overlap gdal_Info file_list' = Ok window'
    ∧ ∀ px py, in_window window px py ↔ in_window window' px py.
Proof.
  intros Hperm Hne Hread Hnum.
  destruct (mapM_Permutation _ _ _ _ Hperm Hread) as (corners' & Hread' & Hcorners).
  assert (file_list' ≠ []) as Hne'.
  { intros ->. by apply Permutation_nil_r in Hperm. }
  assert (Forall numeric corners') as Hnum' by (by rewrite <- Hcorners).
  destruct (get_common_overlap_extrema _ _ _ Hne Hread Hnum)
    as (ulx & uly & lrx & lry & -> & H1 & H2 & H3 & H4).
  destruct (get_common_overlap_extrema _ _ _ Hne' Hread' Hnum')
    as (ulx' & uly' & lrx' & lry' & -> & H1' & H2' & H3' & H4').
  eexists _, _. split_and!; [done|done|]. intros px py.
  rewrite (extrema_in_window corners ulx uly lrx lry) by done.
  rewrite (extrema_in_window corners' ulx' uly' lrx' lry') by done.
  by setoid_rewrite Hcorners.
Qed.

Lemma get_common_overlap_any_order_witness :
  ∃ window window',
    get_common_overlap two_rasters ["a_dem.tif"; "b_dem.tif"] = Ok window
    ∧ get_common_overlap two_rasters ["b_dem.tif"; "a_dem.tif"] = Ok window'
    ∧ ∀ px py, in_window window px py ↔ in_window window' px py.
Proof.
  apply (get_common_overlap_any_order two_rasters _ _ [box 0 10 10 0; box 5 15 15 5]).
  - apply Permutation_swap.
  - discriminate.
  - reflexivity.
  - compute_done.
Defined.

(** More rasters only shrink the window: every point of the window of a
    longer list lies in the window of the list it extends. *)
Lemma get_common_overlap_shrinks
    (gdal_Info : string → result cornerCoordinates)
    (file_list more : list string) (corners more_corners : list cornerCoordinates) :
  file_list ≠ [] →
  read_corners gdal_Info file_list = Ok corners →
  read_corners gdal_Info more = Ok more_corners →
  Forall numeric corners → Forall numeric more_corners →
  ∃ window smaller,
    get_common_overlap gdal_Info file_list = Ok window
    ∧ get_common_overlap gdal_Info (file_list ++ more) = Ok smaller
    ∧ ∀ px py, in_window smaller px py → in_window window px py.
Proof.
  intros Hne Hread Hmore Hnum Hnum_more.
  assert (read_corners gdal_Info (file_list ++ more) = Ok (corners ++ more_corners))
    as Hall.
  { apply mapM_app_Ok. by exists corners, more_corners. }
  assert (file_list ++ more ≠ []) as Hne' by (by destruct file_list).
  destruct (get_common_overlap_extrema _ _ _ Hne Hread Hnum)
    as (ulx & uly & lrx & lry & -> & H1 & H2 & H3 & H4).
  destruct (get_common_overlap_extrema _ _ _ Hne' Hall)
    as (ulx' & uly' & lrx' & lry' & -> & H1' & H2' & H3' & H4');
    [by apply Forall_app|].
  eexists _, _. split_and!; [done|done|]. intros px py.
  rewrite (extrema_in_window corners ulx uly lrx lry) by done.
  rewrite (extrema_in_window (corners ++ more_corners) ulx' uly' lrx' lry') by done.
  intros Hin corner Hcorner. apply Hin, elem_of_app. by left.
Qed.

Lemma get_common_overlap_shrinks_witness :
  ∃ window smaller,
    get_common_overlap two_rasters ["a_dem.tif"] = Ok window
    ∧ get_common_overlap two_rasters (["a_dem.tif"] ++ ["b_dem.tif"]) = Ok smaller
    ∧ ∀ px py, in_window smaller px py → in_window window px py.
Proof.
  apply (get_common_overlap_shrinks two_rasters _ _ [box 0 10 10 0] [box 5 15 15 5]).
  - discriminate.
  - reflexivity.
  - reflexivity.
  - compute_done.
  - compute_done.
Defined.

(** Rasters that do not overlap are not detected: when one raster lies
    wholly east of another the function still returns a window, whose left
    edge is right of its right edge and which holds no point. *)
Lemma get_common_overlap_apart
    (gdal_Info : string → result cornerCoordinates)
    (file_list : list string) (corners : list cornerCoordinates)
    (west east : cornerCoordinates) :
  read_corners gdal_Info file_list = Ok corners →
  Forall numeric corners →
  west ∈ corners → east ∈ corners → flt (lr_x west) (ul_x east) →
  ∃ ulx uly lrx lry,
    get_common_overlap gdal_Info file_list = Ok [ulx; uly; lrx; lry]
    ∧ flt lrx ulx
    ∧ ∀ px py, ¬ in_window [ulx; uly; lrx; lry] px py.
Proof.
  intros Hread Hnum Hwest Heast Hapart.
  assert (file_list ≠ []) as Hne.
  { intros ->. injection Hread as <-. by apply elem_of_nil in Hwest. }
  destruct (get_common_overlap_extrema _ _ _ Hne Hread Hnum)
    as (ulx & uly & lrx & lry & Hrun & [_ Hulx] & _ & [_ Hlrx] & _).
  exists ulx, uly, lrx, lry.
  assert (flt lrx ulx) as Hinverted.
  { eapply flt_fle_trans; [|apply Hulx; by apply list_elem_of_fmap_2].
    eapply fle_flt_trans; [|exact Hapart]. apply Hlrx. by apply list_elem_of_fmap_2. }
  split_and!; [done|done|].
  intros px py (H1 & H2 & _). apply (flt_not_fle _ _ Hinverted).
  by eapply fle_trans.
Qed.

Lemma get_common_overlap_apart_witness :
  ∃ ulx uly lrx lry,
    get_common_overlap rasters_apart ["west_dem.tif"; "east_dem.tif"]
    = Ok [ulx; uly; lrx; lry]
    ∧ flt lrx ulx
    ∧ ∀ px py, ¬ in_window [ulx; uly; lrx; lry] px py.
Proof.
  apply (get_common_overlap_apart rasters_apart _ [box 0 10 10 0; box 20 10 30 0]
           (box 0 10 10 0) (box 20 10 30 0)).
  - reflexivity.
  - compute_done.
  - apply list_elem_of_here.
  - apply list_elem_of_further, list_elem_of_here.
  - reflexivity.
Defined.

End Overlap.

(** ** Submitting jobs for the granules of a search *)

Module Neighbors.
Import Py.

(** A product of the catalog.  Of its [properties] the cells read
    ['sceneName'] and, on the items of a baseline stack,
    ['temporalBaseline']. *)
Record ASFProduct := Product { sceneName : string; temporalBaseline : Z }.

(** What [asf_search.search] and [baseline_search.stack_from_product]
    return: the products found, and whether the search ran to its end. *)
Record ASFSearchResults := SearchResults {
  products : list ASFProduct;
  searchComplete : bool
}.

(** Modelled from the spec: [ASFSearchResults.raise_if_incomplete] is a
    method of the search package, whose source is not part of the notebooks;
    following "raise if search results incomplete" it raises the package's
    search error on an incomplete result and returns [None] otherwise. *)
Definition raise_if_incomplete (results : ASFSearchResults) : result unit :=
  if searchComplete results then Ok tt
  else Raise (ASFSearchError "Results are incomplete due to a search error").

(** A prepared job: the [job_specification] dictionary.  The only job
    parameter the cells store is the list of granules. *)
Record job := Job {
  job_parameters : gmap string (list string);
  job_type : string;
  name : string
}.

Definition job_specification : job :=
  {| job_parameters := ∅; job_type := "INSAR_GAMMA"; name := "Project Name" |}.

(** [search_parameters['platform']], [get_neighbors]'s default [depth],
    and [batch_size]. *)
Definition search_platform : string := "S1".
Definition default_depth : Z := 2.
Definition batch_size : nat := 10.

(** [job = deepcopy(job_specification);
     job['job_parameters']['granules'] = [granule, neighbor]]. *)
Definition job_for (granule neighbor : string) : job :=
  {| job_parameters := <["granules" := [granule; neighbor]]> (job_parameters job_specification);
     job_type := job_type job_specification;
     name := name job_specification |}.

(** The filter of [get_neighbors]:
    [item.properties['temporalBaseline'] < 0
     and item.properties['sceneName'].startswith(platform)]. *)
Definition is_neighbor (platform : string) (item : ASFProduct) : Prop :=
  temporalBaseline item < 0 ∧ String.prefix platform (sceneName item) = true.

#[global] Instance is_neighbor_dec platform item : Decision (is_neighbor platform item).
Proof. unfold is_neighbor. apply _. Defined.

(** [range(0, n, batch_size)] and the slices [l[i:i+batch_size]]. *)
Definition batch_starts (n : nat) : list nat :=
  (λ k, k * batch_size)%nat <$> seq 0 ((n + (batch_size - 1)) / batch_size)%nat.

Definition batches {A} (l : list A) : list (list A) :=
  (λ i, take batch_size (drop i l)) <$> batch_starts (length l).

Section workflow.

(** The calls that leave the notebook: the baseline-stack query and the
    submission of a batch; either may raise. *)
Variable stack_from_product : ASFProduct → result ASFSearchResults.
Variable submit_prepared_jobs : list job → result unit.

(** The cell that lists the unprocessed granules; [search] is the outcome
    of the call [asf_search.search] with the search parameters. *)
Definition unprocessed_granules (processed_granules : list string)
    (search : result ASFSearchResults) : result (list ASFProduct) :=
  search_results ← search;
  _ ← raise_if_incomplete search_results;
  mret (filter (λ r, sceneName r ∉ processed_granules) (products search_results)).

Definition get_neighbors (granule : ASFProduct) (platform : string) (depth : Z)
    : result (list string) :=
  stack ← stack_from_product granule;
  _ ← raise_if_incomplete stack;
  let stack := filter (is_neighbor platform) (products stack) in
  let neighbors := sceneName <$> slice_from_neg depth stack in
  mret neighbors.

Definition get_jobs_for_granule (granule : ASFProduct) : result (list job) :=
  neighbors ← get_neighbors granule search_platform default_depth;
  mret (job_for (sceneName granule) <$> (neighbors : list string)).

(** [[job for granule in batch for job in get_jobs_for_granule(granule)]]. *)
Definition new_jobs (batch : list ASFProduct) : result (list job) :=
  jobs ← mapM get_jobs_for_granule batch;
  mret (concat jobs).

(** The submission loop.  [submitted] is the sequence of batches handed to
    the service so far; an exception ends the loop and leaves it as it is
    at that point. *)
Fixpoint submit_batches (todo : list (list ASFProduct)) (submitted : list (list job))
    : list (list job) * result unit :=
  match todo with
  | [] => (submitted, Ok tt)
  | batch :: todo =>
      match new_jobs batch with
      | Raise e => (submitted, Raise e)
      | Ok jobs =>
          match submit_prepared_jobs jobs with
          | Raise e => (submitted, Raise e)
          | Ok _ => submit_batches todo (submitted ++ [jobs])
          end
      end
  end.

Definition submit_all (unprocessed : list ASFProduct) : list (list job) * result unit :=
  submit_batches (batches unprocessed) [].

End workflow.

(** The exception of an incomplete result. *)
Definition incomplete : exn :=
  ASFSearchError "Results are incomplete due to a search error".

(** A baseline stack for the examples, in the order the catalog returns it
    (oldest first), for the granule acquired on 6 April. *)
Definition april_granule : ASFProduct := Product "S1A_IW_SLC__1SDV_20230406" 0.

Definition april_stack : list ASFProduct :=
  [Product "S1A_IW_SLC__1SDV_20230301" (-36);
   Product "S1B_IW_SLC__1SDV_20230313" (-24);
   Product "ALOS2_20230320" (-17);
   Product "S1A_IW_SLC__1SDV_20230325" (-12);
   april_granule;
   Product "S1A_IW_SLC__1SDV_20230418" 12].

Definition complete_stack (granule : ASFProduct) : result ASFSearchResults :=
  Ok (SearchResults april_stack true).

Definition incomplete_stack (granule : ASFProduct) : result ASFSearchResults :=
  Ok (SearchResults april_stack false).

Definition accept (jobs : list job) : result unit := Ok tt.

Definition refuse (jobs : list job) : result unit :=
  Raise (External "HyP3APIError").

(** Twelve unprocessed granules named A to L; the stack query of K, the
    eleventh, comes back incomplete. *)
Definition granule_no (n : nat) : ASFProduct :=
  Product (String (ascii_of_nat (65 + n)) "") 0.

Definition twelve_granules : list ASFProduct := granule_no <$> seq 0 12.

Definition incomplete_at_K (granule : ASFProduct) : result ASFSearchResults :=
  if decide (sceneName granule = "K") then incomplete_stack granule
  else complete_stack granule.

(** Every stack query of the batches comes back complete. *)
Definition all_complete (stack_from_product : ASFProduct → result ASFSearchResults)
    (todo : list (list ASFProduct)) : Prop :=
  Forall (Forall (λ granule, ∃ stack, stack_from_product granule = Ok stack
                                      ∧ searchComplete stack = true)) todo.

(** *** Slices *)

Lemma slice_from_neg_suffix {A} (depth : Z) (s : list A) :
  slice_from_neg depth s `suffix_of` s.
Proof. unfold slice_from_neg. apply suffix_drop. Qed.

Lemma slice_from_neg_zero {A} (s : list A) : slice_from_neg 0 s = s.
Proof. unfold slice_from_neg. simpl. by destruct s. Qed.

Lemma length_slice_from_neg {A} (depth : Z) (s : list A) :
  0 < depth → Z.of_nat (length (slice_from_neg depth s)) = Z.min depth (Z.of_nat (length s)).
Proof.
  intros Hd. unfold slice_from_neg. rewrite length_drop.
  destruct (decide (- depth < 0)); lia.
Qed.

(** *** The cells, case by case *)

Section workflow_facts.

Variable stack_from_product : ASFProduct → result ASFSearchResults.
Variable submit_prepared_jobs : list job → result unit.

Lemma raise_if_incomplete_spec (results : ASFSearchResults) :
  raise_if_incomplete results
  = if searchComplete results then Ok tt else Raise incomplete.
Proof. done. Qed.

Lemma get_neighbors_complete granule platform depth stack :
  stack_from_product granule = Ok stack → searchComplete stack = true →
  get_neighbors stack_from_product granule platform depth
  = Ok (sceneName <$> slice_from_neg depth (filter (is_neighbor platform) (products stack))).
Proof.
  intros Hstack Hc. unfold get_neighbors, raise_if_incomplete.
  rewrite Hstack. simpl. by rewrite Hc.
Qed.

Lemma get_neighbors_incomplete granule platform depth stack :
  stack_from_product granule = Ok stack → searchComplete stack = false →
  get_neighbors stack_from_product granule platform depth = Raise incomplete.
Proof.
  intros Hstack Hc. unfold get_neighbors, raise_if_incomplete.
  rewrite Hstack. simpl. by rewrite Hc.
Qed.

Lemma get_neighbors_external granule platform depth e :
  stack_from_product granule = Raise e →
  get_neighbors stack_from_product granule platform depth = Raise e.
Proof. intros Hstack. unfold get_neighbors. by rewrite Hstack. Qed.

Lemma get_jobs_for_granule_incomplete granule stack :
  stack_from_product granule = Ok stack → searchComplete stack = false →
  get_jobs_for_granule stack_from_product granule = Raise incomplete.
Proof.
  intros Hstack Hc. unfold get_jobs_for_granule.
  by rewrite (get_neighbors_incomplete _ _ _ stack).
Qed.

Lemma get_jobs_for_granule_complete granule stack :
  stack_from_product granule = Ok stack → searchComplete stack = true →
  ∃ jobs, get_jobs_for_granule stack_from_product granule = Ok jobs.
Proof.
  intros Hstack Hc. unfold get_jobs_for_granule.
  rewrite (get_neighbors_complete _ _ _ stack) by done. by eexists.
Qed.

Lemma new_jobs_incomplete earlier granule later jobs stack :
  mapM (get_jobs_for_granule stack_from_product) earlier = Ok jobs →
  stack_from_product granule = Ok stack → searchComplete stack = false →
  new_jobs stack_from_product (earlier ++ granule :: later) = Raise incomplete.
Proof.
  intros Hearlier Hstack Hc. unfold new_jobs.
  rewrite (mapM_Raise _ earlier later granule jobs incomplete); [done|done|].
  by apply (get_jobs_for_granule_incomplete granule stack).
Qed.

Lemma new_jobs_complete batch :
  Forall (λ granule, ∃ stack, stack_from_product granule = Ok stack
                              ∧ searchComplete stack = true) batch →
  ∃ jobs, new_jobs stack_from_product batch = Ok jobs.
Proof.
  intros Hall. unfold new_jobs.
  assert (∃ js, mapM (get_jobs_for_granule stack_from_product) batch = Ok js)
    as [js ->]; [|by eexists].
  induction Hall as [|granule batch (stack & Hstack & Hc) _ [js IH]]; [by eexists|].
  destruct (get_jobs_for_granule_complete granule stack Hstack Hc) as [j Hj].
  exists (j :: js). simpl. rewrite Hj. simpl. by rewrite IH.
Qed.

(** The loop hands over the batches in order until one raises. *)
Lemma submit_batches_raise before batch after jobs submitted e :
  Forall2 (λ b j, new_jobs stack_from_product b = Ok j
                  ∧ submit_prepared_jobs j = Ok tt) before jobs →
  new_jobs stack_from_product batch = Raise e →
  submit_batches stack_from_product submit_prepared_jobs
                 (before ++ batch :: after) submitted
  = (submitted ++ jobs, Raise e).
Proof.
  intros Hbefore Hbatch. revert submitted.
  induction Hbefore as [|b j before jobs [Hb Hj] _ IH]; intros submitted; simpl.
  - by rewrite Hbatch, app_nil_r.
  - rewrite Hb, Hj, IH, <- app_assoc. done.
Qed.

Lemma submit_batches_return todo jobs submitted :
  Forall2 (λ b j, new_jobs stack_from_product b = Ok j
                  ∧ submit_prepared_jobs j = Ok tt) todo jobs →
  submit_batches stack_from_product submit_prepared_jobs todo submitted
  = (submitted ++ jobs, Ok tt).
Proof.
  intros Htodo. revert submitted.
  induction Htodo as [|b j todo jobs [Hb Hj] _ IH]; intros submitted; simpl.
  - by rewrite app_nil_r.
  - rewrite Hb, Hj, IH, <- app_assoc. done.
Qed.

Lemma submit_batches_complete todo submitted :
  all_complete stack_from_product todo →
  (∀ jobs, submit_prepared_jobs jobs = Ok tt) →
  ∃ jobs, submit_batches stack_from_product submit_prepared_jobs todo submitted
          = (submitted ++ jobs, Ok tt)
        ∧ length jobs = length todo.
Proof.
  intros Hall Hsubmit.
  assert (∃ jobs, Forall2 (λ b j, new_jobs stack_from_product b = Ok j
                                  ∧ submit_prepared_jobs j = Ok tt) todo jobs)
    as [jobs Hjobs].
  { induction Hall as [|b todo Hb _ [jobs IH]]; [by exists []|].
    destruct (new_jobs_complete b Hb) as [j Hj].
    exists (j :: jobs). by constructor. }
  exists jobs. split; [by apply submit_batches_return|].
  symmetry. by eapply Forall2_length.
Qed.

End workflow_facts.

(** *** The stated properties *)

(** C5.  Errors are passed on, nothing is recovered.  An incomplete search
    result ends the cell that lists the unprocessed granules with the search
    error, and an exception of the search call itself is passed on; an
    incomplete baseline stack ends [get_neighbors] with the search error
    whatever the platform and depth; in the submission loop the first
    granule whose stack is incomplete ends the whole loop with that error,
    the batches before its own having been submitted and nothing after
    them.  On complete results no error is raised: the cells return their
    values and the loop submits every batch. *)
Theorem incomplete_results_propagate
    (stack_from_product : ASFProduct → result ASFSearchResults)
    (submit_prepared_jobs : list job → result unit) :
  (∀ processed results,
      unprocessed_granules processed (Ok results)
      = if searchComplete results
        then Ok (filter (λ r, sceneName r ∉ processed) (products results))
        else Raise incomplete)
  ∧ (∀ processed e, unprocessed_granules processed (Raise e) = Raise e)
  ∧ (∀ granule platform depth stack,
      stack_from_product granule = Ok stack →
      get_neighbors stack_from_product granule platform depth
      = if searchComplete stack
        then Ok (sceneName <$> slice_from_neg depth
                                 (filter (is_neighbor platform) (products stack)))
        else Raise incomplete)
  ∧ (∀ before earlier granule later after jobs early_jobs submitted stack,
      Forall2 (λ b j, new_jobs stack_from_product b = Ok j
                      ∧ submit_prepared_jobs j = Ok tt) before jobs →
      mapM (get_jobs_for_granule stack_from_product) earlier = Ok early_jobs →
      stack_from_product granule = Ok stack →
      searchComplete stack = false →
      submit_batches stack_from_product submit_prepared_jobs
                     (before ++ (earlier ++ granule :: later) :: after) submitted
      = (submitted ++ jobs, Raise incomplete))
  ∧ (∀ todo submitted,
      all_complete stack_from_product todo →
      (∀ jobs, submit_prepared_jobs jobs = Ok tt) →
      ∃ jobs, submit_batches stack_from_product submit_prepared_jobs todo submitted
              = (submitted ++ jobs, Ok tt)
            ∧ length jobs = length todo).
Proof.
  split_and!.
  - intros processed results. unfold unprocessed_granules, raise_if_incomplete.
    simpl. by destruct (searchComplete results).
  - done.
  - intros granule platform depth stack Hstack.
    destruct (searchComplete stack) eqn:Hc.
    + by apply (get_neighbors_complete _ _ _ _ stack).
    + by apply (get_neighbors_incomplete _ _ _ _ stack).
  - intros before earlier granule later after jobs early_jobs submitted stack
      Hbefore Hearlier Hstack Hc.
    apply submit_batches_raise; [done|].
    by apply (new_jobs_incomplete _ earlier granule later early_jobs stack).
  - intros todo submitted. apply submit_batches_complete.
Qed.

Lemma incomplete_results_propagate_witness :
  ∃ first_batch,
    new_jobs incomplete_at_K (take 10 twelve_granules) = Ok first_batch
    ∧ submit_all incomplete_at_K accept twelve_granules
      = ([first_batch], Raise incomplete).
Proof.
  destruct (new_jobs incomplete_at_K (take 10 twelve_granules))
    as [first_batch|] eqn:Hfirst; [|by vm_compute in Hfirst].
  exists first_batch. split; [done|].
  destruct (incomplete_results_propagate incomplete_at_K accept)
    as (_ & _ & _ & Hloop & _).
  apply (Hloop [take 10 twelve_granules] [] (granule_no 10) [granule_no 11] []
               [first_batch] [] [] (SearchResults april_stack false)).
  - constructor; [done|constructor].
  - reflexivity.
  - reflexivity.
  - reflexivity.
Defined.

(** What holds of [get_neighbors] at every depth: each returned name is the
    name of an item of the stack acquired before the granule and named with
    the platform prefix. *)
Lemma get_neighbors_provenance
    (stack_from_product : ASFProduct → result ASFSearchResults)
    granule platform depth names :
  get_neighbors stack_from_product granule platform depth = Ok names →
  ∃ stack, stack_from_product granule = Ok stack
    ∧ ∀ neighbor, neighbor ∈ names →
        ∃ item, item ∈ products stack ∧ sceneName item = neighbor
              ∧ temporalBaseline item < 0
              ∧ String.prefix platform (sceneName item) = true.
Proof.
  unfold get_neighbors.
  destruct (stack_from_product granule) as [stack|e]; simpl; [|done].
  unfold raise_if_incomplete. destruct (searchComplete stack); simpl; [|done].
  intros [= <-]. exists stack. split; [done|].
  intros neighbor (item & -> & Hin)%list_elem_of_fmap.
  exists item.
  assert (item ∈ filter (is_neighbor platform) (products stack)) as Hf.
  { destruct (slice_from_neg_suffix depth (filter (is_neighbor platform) (products stack)))
      as [k ->]. apply elem_of_app. by right. }
  apply list_elem_of_filter in Hf as [[? ?] ?]. done.
Qed.

(** At a depth of one or more, at most [depth] names are returned: the
    [depth] last of the qualifying items, or all of them when there are
    fewer. *)
Lemma get_neighbors_at_most_depth
    (stack_from_product : ASFProduct → result ASFSearchResults)
    granule platform depth names :
  0 < depth →
  get_neighbors stack_from_product granule platform depth = Ok names →
  Z.of_nat (length names) ≤ depth.
Proof.
  intros Hd. unfold get_neighbors.
  destruct (stack_from_product granule) as [stack|e]; simpl; [|done].
  unfold raise_if_incomplete. destruct (searchComplete stack); simpl; [|done].
  intros [= <-]. rewrite length_fmap, length_slice_from_neg by done. lia.
Qed.

(** At depth 0 the slice [stack[-0:]] is the whole list: every qualifying
    item is returned. *)
Lemma get_neighbors_depth_zero
    (stack_from_product : ASFProduct → result ASFSearchResults)
    granule platform stack :
  stack_from_product granule = Ok stack → searchComplete stack = true →
  get_neighbors stack_from_product granule platform 0
  = Ok (sceneName <$> filter (is_neighbor platform) (products stack)).
Proof.
  intros Hstack Hc.
  rewrite (get_neighbors_complete _ _ _ _ stack) by done.
  by rewrite slice_from_neg_zero.
Qed.

(** C10, at depth 0.  For the April granule, whose stack holds three
    earlier Sentinel-1 scenes, [get_neighbors] with [depth = 0] returns all
    three names, which is more than [depth] names; with [depth = 2] it
    returns the two nearest. *)
Theorem get_neighbors_depth_zero_stack :
  get_neighbors complete_stack april_granule "S1" 0
  = Ok ["S1A_IW_SLC__1SDV_20230301"; "S1B_IW_SLC__1SDV_20230313";
        "S1A_IW_SLC__1SDV_20230325"]
  ∧ get_neighbors complete_stack april_granule "S1" 2
    = Ok ["S1B_IW_SLC__1SDV_20230313"; "S1A_IW_SLC__1SDV_20230325"].
Proof. split; reflexivity. Qed.

(** *** Further properties of the workflow *)

(** What [get_neighbors] returns, depth by depth, when it returns: the
    names come from stack items acquired before the granule and named with
    the platform prefix, in stack order; a depth of one or more selects the
    last [depth] of them (all when there are fewer), depth 0 selects all,
    and a negative depth drops the first [-depth]. *)
Lemma get_neighbors_by_depth
    (stack_from_product : ASFProduct → result ASFSearchResults)
    granule platform depth names :
  get_neighbors stack_from_product granule platform depth = Ok names →
  ∃ stack,
    stack_from_product granule = Ok stack
    ∧ searchComplete stack = true
    ∧ (∀ neighbor, neighbor ∈ names →
         ∃ item, item ∈ products stack ∧ sceneName item = neighbor
               ∧ temporalBaseline item < 0
               ∧ String.prefix platform (sceneName item) = true)
    ∧ let qualifying := sceneName <$> filter (is_neighbor platform) (products stack) in
      (0 < depth →
         names = drop (length qualifying - Z.to_nat depth) qualifying
         ∧ length names = (length qualifying `min` Z.to_nat depth)%nat)
      ∧ (depth = 0 → names = qualifying)
      ∧ (depth < 0 → names = drop (Z.to_nat (- depth)) qualifying).
Proof.
  intros Hnames.
  destruct (get_neighbors_provenance _ _ _ _ _ Hnames) as (stack & Hstack & Hall).
  exists stack. revert Hnames. unfold get_neighbors. rewrite Hstack. simpl.
  unfold raise_if_incomplete. destruct (searchComplete stack); simpl; [|done].
  intros [= <-]. split_and!; [done|done|done|..].
  - intros Hd. rewrite slice_from_neg_positive by done.
    rewrite fmap_drop, length_fmap. split; [done|].
    rewrite length_drop, length_fmap. lia.
  - intros ->. by rewrite slice_from_neg_zero.
  - intros Hd. unfold slice_from_neg.
    destruct (decide (- depth < 0)); [lia|]. rewrite fmap_drop.
    destruct (decide (- depth
                      ≤ Z.of_nat (length (filter (is_neighbor platform) (products stack)))))
      as [Hle|Hgt].
    + by rewrite Z.min_l.
    + rewrite Z.min_r by lia. rewrite Nat2Z.id.
      rewrite !drop_ge; [done| |]; rewrite length_fmap; lia.
Qed.

Lemma get_neighbors_by_depth_witness :
  ∃ stack,
    complete_stack april_granule = Ok stack
    ∧ searchComplete stack = true
    ∧ (∀ neighbor, neighbor ∈ ["S1A_IW_SLC__1SDV_20230325"] →
         ∃ item, item ∈ products stack ∧ sceneName item = neighbor
               ∧ temporalBaseline item < 0
               ∧ String.prefix "S1" (sceneName item) = true)
    ∧ let qualifying := sceneName <$> filter (is_neighbor "S1") (products stack) in
      (0 < 1 →
         ["S1A_IW_SLC__1SDV_20230325"]
         = drop (length qualifying - Z.to_nat 1) qualifying
         ∧ length ["S1A_IW_SLC__1SDV_20230325"]
           = (length qualifying `min` Z.to_nat 1)%nat)
      ∧ (1 = 0 → ["S1A_IW_SLC__1SDV_20230325"] = qualifying)
      ∧ (1 < 0 → ["S1A_IW_SLC__1SDV_20230325"]
                 = drop (Z.to_nat (- 1)) qualifying).
Proof.
  apply (get_neighbors_by_depth complete_stack april_granule "S1" 1). reflexivity.
Defined.

(** [get_jobs_for_granule] prepares at most two jobs; each is the job
    specification with the granule itself and one earlier scene of the same
    platform as its two granules. *)
Lemma get_jobs_for_granule_jobs
    (stack_from_product : ASFProduct → result ASFSearchResults)
    granule jobs :
  get_jobs_for_granule stack_from_product granule = Ok jobs →
  (length jobs ≤ 2)%nat
  ∧ ∃ stack, stack_from_product granule = Ok stack
    ∧ ∀ prepared, prepared ∈ jobs →
        job_type prepared = "INSAR_GAMMA" ∧ name prepared = "Project Name"
        ∧ ∃ item, item ∈ products stack
                ∧ temporalBaseline item < 0
                ∧ String.prefix "S1" (sceneName item) = true
                ∧ job_parameters prepared
                  = {[ "granules" := [sceneName granule; sceneName item] ]}.
Proof.
  unfold get_jobs_for_granule.
  destruct (get_neighbors _ _ _ _) as [names|e] eqn:Hnames; simpl; [|done].
  intros [= <-]. split.
  - rewrite length_fmap.
    assert (0 < default_depth) as Hdepth by (unfold default_depth; lia).
    pose proof (get_neighbors_at_most_depth _ _ _ _ _ Hdepth Hnames).
    unfold default_depth in *. lia.
  - destruct (get_neighbors_provenance _ _ _ _ _ Hnames) as (stack & Hstack & Hall).
    exists stack. split; [done|].
    intros prepared (neighbor & -> & Hin)%list_elem_of_fmap.
    destruct (Hall neighbor Hin) as (item & Hitem & <- & Hb & Hp).
    split_and!; [done|done|]. exists item. split_and!; try done.
Qed.

Lemma get_jobs_for_granule_jobs_witness :
  get_jobs_for_granule complete_stack april_granule
  = Ok [job_for "S1A_IW_SLC__1SDV_20230406" "S1B_IW_SLC__1SDV_20230313";
        job_for "S1A_IW_SLC__1SDV_20230406" "S1A_IW_SLC__1SDV_20230325"]
  ∧ (length [job_for "S1A_IW_SLC__1SDV_20230406" "S1B_IW_SLC__1SDV_20230313";
             job_for "S1A_IW_SLC__1SDV_20230406" "S1A_IW_SLC__1SDV_20230325"] ≤ 2)%nat.
Proof.
  split; [reflexivity|].
  apply (get_jobs_for_granule_jobs complete_stack april_granule). reflexivity.
Defined.

(** The slices of the batch loop, for any number of slices that covers
    the list. *)
Lemma concat_slices {A} (count : nat) (l : list A) :
  (length l ≤ count * batch_size)%nat →
  concat ((λ i, take batch_size (drop i l))
            <$> ((λ k, k * batch_size)%nat <$> seq 0 count)) = l.
Proof.
  revert l. induction count as [|count IH]; intros l Hlen.
  - destruct l; [done|simpl in Hlen; lia].
  - cbn [seq]. rewrite <- fmap_S_seq, !fmap_cons. cbn [concat].
    change (0 * batch_size)%nat with 0%nat. rewrite drop_0.
    transitivity (take batch_size l ++ drop batch_size l); [|apply take_drop].
    f_equal.
    etrans; [|apply (IH (drop batch_size l));
              rewrite length_drop; unfold batch_size in *; lia].
    f_equal. rewrite <- !list_fmap_compose. apply list_fmap_ext.
    intros ? k _. simpl. rewrite drop_drop. do 2 f_equal.
Qed.

Lemma concat_batches {A} (l : list A) : concat (batches l) = l.
Proof.
  unfold batches, batch_starts. apply concat_slices.
  pose proof (Nat.div_mod_eq (length l + (batch_size - 1)) batch_size) as Hdiv.
  pose proof (Nat.mod_upper_bound (length l + (batch_size - 1)) batch_size).
  unfold batch_size in *. lia.
Qed.

Lemma length_batches {A} (l : list A) :
  length (batches l) = ((length l + 9) / 10)%nat.
Proof. unfold batches, batch_starts. by rewrite !length_fmap, length_seq. Qed.

Lemma concat_fmap_concat {A} (ks : list (list (list A))) :
  concat ((λ k, concat k) <$> ks) = concat (concat ks).
Proof.
  induction ks as [|k ks IH]; [done|].
  rewrite fmap_cons. simpl. by rewrite concat_app, <- IH.
Qed.

(** The batch loop visits every granule once, in order, in batches that
    are never empty and never hold more than ten; there are as many batches
    as tens in the number of granules, rounded up. *)
Lemma batches_cover {A} (l : list A) :
  concat (batches l) = l
  ∧ Forall (λ batch, (0 < length batch ≤ batch_size)%nat) (batches l)
  ∧ length (batches l) = ((length l + 9) / 10)%nat.
Proof.
  split_and!; [apply concat_batches| |apply length_batches].
  unfold batches, batch_starts.
  - rewrite <- list_fmap_compose. apply Forall_fmap, Forall_forall.
    intros k Hk%elem_of_seq. simpl.
    rewrite length_take, length_drop.
    pose proof (Nat.div_mod_eq (length l + (batch_size - 1)) batch_size) as Hdiv.
    pose proof (Nat.mod_upper_bound (length l + (batch_size - 1)) batch_size).
    unfold batch_size in *. lia.
Qed.

(** When every stack query and every submission succeeds, batching changes
    nothing in what is submitted: the batches handed to the service, put
    end to end, are the jobs of the granules in order, and one call is made
    per ten granules (none when there is no granule). *)
Lemma submit_all_returns
    (stack_from_product : ASFProduct → result ASFSearchResults)
    (submit_prepared_jobs : list job → result unit)
    (unprocessed : list ASFProduct) (per_granule : list (list job)) :
  mapM (get_jobs_for_granule stack_from_product) unprocessed = Ok per_granule →
  (∀ jobs, submit_prepared_jobs jobs = Ok tt) →
  ∃ submitted,
    submit_all stack_from_product submit_prepared_jobs unprocessed = (submitted, Ok tt)
    ∧ concat submitted = concat per_granule
    ∧ length submitted = ((length unprocessed + 9) / 10)%nat.
Proof.
  intros Hjobs Hsubmit. rewrite <- (concat_batches unprocessed) in Hjobs.
  apply mapM_concat_Ok in Hjobs as (ks & Hks & <-).
  exists ((λ k, concat k) <$> ks). unfold submit_all.
  rewrite (submit_batches_return _ _ (batches unprocessed) ((λ k, concat k) <$> ks)).
  - split_and!; [done|apply concat_fmap_concat|].
    rewrite length_fmap, <- (Forall2_length _ _ _ Hks). apply length_batches.
  - apply Forall2_fmap_r. eapply Forall2_impl; [exact Hks|].
    intros batch kb Hkb. split; [|done]. unfold new_jobs. by rewrite Hkb.
Qed.

Lemma submit_all_returns_witness :
  ∃ per_granule submitted,
    mapM (get_jobs_for_granule complete_stack) twelve_granules = Ok per_granule
    ∧ submit_all complete_stack accept twelve_granules = (submitted, Ok tt)
    ∧ concat submitted = concat per_granule
    ∧ length submitted = 2%nat.
Proof.
  destruct (mapM (get_jobs_for_granule complete_stack) twelve_granules)
    as [per_granule|] eqn:Hjobs; [|by vm_compute in Hjobs].
  destruct (submit_all_returns complete_stack accept twelve_granules per_granule Hjobs)
    as (submitted & Hrun & Hconcat & Hlen); [done|].
  exists per_granule, submitted. split_and!; [done|done|done|exact Hlen].
Defined.

(** A submission that the service refuses ends the loop with the service's
    exception: the batches before it stay submitted, the refused batch and
    the batches after it are not. *)
Lemma submit_batches_refused
    (stack_from_product : ASFProduct → result ASFSearchResults)
    (submit_prepared_jobs : list job → result unit)
    before batch after jobs refused submitted e :
  Forall2 (λ b j, new_jobs stack_from_product b = Ok j
                  ∧ submit_prepared_jobs j = Ok tt) before jobs →
  new_jobs stack_from_product batch = Ok refused →
  submit_prepared_jobs refused = Raise e →
  submit_batches stack_from_product submit_prepared_jobs
                 (before ++ batch :: after) submitted
  = (submitted ++ jobs, Raise e).
Proof.
  intros Hbefore Hbatch Hrefused. revert submitted.
  induction Hbefore as [|b j before jobs [Hb Hj] _ IH]; intros submitted; simpl.
  - by rewrite Hbatch, Hrefused, app_nil_r.
  - rewrite Hb, Hj, IH, <- app_assoc. done.
Qed.

Lemma submit_batches_refused_witness :
  submit_all complete_stack refuse twelve_granules
  = ([], Raise (External "HyP3APIError")).
Proof.
  destruct (new_jobs complete_stack (take 10 twelve_granules))
    as [refused|] eqn:Hfirst; [|by vm_compute in Hfirst].
  apply (submit_batches_refused complete_stack refuse
           [] (take 10 twelve_granules) [drop 10 twelve_granules] [] refused []).
  - constructor.
  - exact Hfirst.
  - reflexivity.
Defined.

End Neighbors.

(** ** Strings and paths *)

Module Pathlib.

(** [s.endswith(ending)]; a name matches the glob pattern ['*' + ending]
    exactly when it ends with [ending] (the endings used contain no glob
    metacharacter). *)
Fixpoint endswith (s ending : string) : bool :=
  if decide (s = ending) then true
  else match s with
       | "" => false
       | String _ rest => endswith rest ending
       end.

(** [s.rfind(c)]: the index of the last occurrence of [c], [None] for -1. *)
Fixpoint rfind (s : string) (c : ascii) : option nat :=
  match s with
  | "" => None
  | String a rest =>
      match rfind rest c with
      | Some i => Some (S i)
      | None => if decide (a = c) then Some 0%nat else None
      end
  end.

(** The slices [s[:i]] and [s[i:]] for an index [i >= 0]. *)
Fixpoint slice_to (i : nat) (s : string) : string :=
  match i, s with
  | S i, String a rest => String a (slice_to i rest)
  | _, _ => ""
  end.

Fixpoint slice_from (i : nat) (s : string) : string :=
  match i, s with
  | S i, String _ rest => slice_from i rest
  | _, _ => s
  end.

(** A path: the directory it lies in, as the list of its components, and
    its final component. *)
Record path := Path { parent : list string; name : string }.

#[global] Instance path_eq_dec : EqDecision path.
Proof. solve_decision. Defined.

#[global] Instance path_countable : Countable path.
Proof.
  apply (inj_countable' (λ p, (parent p, name p)) (λ q, Path q.1 q.2)).
  by intros [].
Defined.

(** [PurePath.suffix] and [PurePath.stem]: the name is cut at its last dot
    unless that dot is the first or the last character. *)
Definition suffix (p : path) : string :=
  match rfind (name p) "."%char with
  | Some i =>
      if decide (0 < i < String.length (name p) - 1)%nat
      then slice_from i (name p) else ""
  | None => ""
  end.

Definition stem (p : path) : string :=
  match rfind (name p) "."%char with
  | Some i =>
      if decide (0 < i < String.length (name p) - 1)%nat
      then slice_to i (name p) else name p
  | None => name p
  end.

(** [directory / file_name]. *)
Definition joinpath (directory : list string) (file_name : string) : path :=
  Path directory file_name.

(** A path lies under a directory, at any depth: what [rglob] walks. *)
Definition under (directory : list string) (p : path) : Prop :=
  directory `prefix_of` parent p.

#[global] Instance under_dec directory p : Decision (under directory p).
Proof. unfold under. apply _. Defined.

(** *** Facts about names *)

Lemma app_assoc (s1 s2 s3 : string) : s1 +:+ (s2 +:+ s3) = (s1 +:+ s2) +:+ s3.
Proof.
  induction s1 as [|a s1 IH]; [done|].
  change (String a (s1 +:+ (s2 +:+ s3)) = String a ((s1 +:+ s2) +:+ s3)).
  by rewrite IH.
Qed.

Lemma length_app (s1 s2 : string) :
  String.length (s1 +:+ s2) = (String.length s1 + String.length s2)%nat.
Proof.
  induction s1 as [|a s1 IH]; [done|].
  change (S (String.length (s1 +:+ s2)) = S (String.length s1 + String.length s2)).
  by rewrite IH.
Qed.

Lemma endswith_refl s : endswith s s = true.
Proof. destruct s; simpl; try done; by rewrite decide_True. Qed.

Lemma endswith_app pre ending : endswith (pre +:+ ending) ending = true.
Proof.
  induction pre as [|a pre IH]; simpl; [apply endswith_refl|].
  destruct (decide _); [done|]. exact IH.
Qed.

Lemma endswith_inv s ending :
  endswith s ending = true → ∃ pre, s = pre +:+ ending.
Proof.
  induction s as [|a s IH]; simpl.
  - destruct (decide _) as [<-|]; [|done]. by exists "".
  - destruct (decide _) as [<-|]; [by exists ""|].
    intros [pre ->]%IH. by exists (String a pre).
Qed.

Lemma endswith_trans s mid ending :
  endswith s mid = true → endswith mid ending = true → endswith s ending = true.
Proof.
  intros [pre ->]%endswith_inv [pre' ->]%endswith_inv.
  rewrite app_assoc. apply endswith_app.
Qed.

(** Two endings of one string are endings of one another, one way round. *)
Lemma endswith_weak_total s e1 e2 :
  endswith s e1 = true → endswith s e2 = true →
  endswith e1 e2 = true ∨ endswith e2 e1 = true.
Proof.
  induction s as [|a s IH]; simpl.
  - destruct (decide ("" = e1)) as [<-|]; [|done].
    destruct (decide ("" = e2)) as [<-|]; [|done]. by left.
  - destruct (decide (String a s = e1)) as [<-|].
    { intros _ H. left. exact H. }
    destruct (decide (String a s = e2)) as [<-|].
    { intros H _. right. simpl. destruct (decide _); [done|exact H]. }
    apply IH.
Qed.

Lemma app_inj_r (s1 s2 t : string) : s1 +:+ t = s2 +:+ t → s1 = s2.
Proof.
  revert s2. induction s1 as [|a s1 IH]; intros [|b s2]; simpl; [done| | |].
  - intros H. apply (f_equal String.length) in H.
    rewrite !length_app in H. simpl in H. lia.
  - intros H. apply (f_equal String.length) in H.
    rewrite !length_app in H. simpl in H. lia.
  - intros [= -> H]. f_equal. by apply IH.
Qed.

Lemma rfind_tif body : rfind (body +:+ ".tif") "."%char = Some (String.length body).
Proof. induction body as [|a body IH]; simpl; [done|]. by rewrite IH. Qed.

Lemma slice_to_app body rest : slice_to (String.length body) (body +:+ rest) = body.
Proof.
  induction body as [|a body IH]; simpl; [by destruct rest|]. by rewrite IH.
Qed.

Lemma slice_from_app body rest : slice_from (String.length body) (body +:+ rest) = rest.
Proof. induction body as [|a body IH]; simpl; [by destruct rest|]. done. Qed.

(** The suffix and stem of a name [body.tif]. *)
Lemma suffix_stem_tif directory body :
  body ≠ "" →
  suffix (Path directory (body +:+ ".tif")) = ".tif"
  ∧ stem (Path directory (body +:+ ".tif")) = body.
Proof.
  intros Hbody. unfold suffix, stem. simpl name. rewrite rfind_tif, length_app.
  assert (0 < String.length body)%nat by (destruct body; [by destruct Hbody|simpl; lia]).
  change (String.length ".tif") with 4%nat.
  destruct (decide _) as [_|Hn]; [|lia].
  by rewrite slice_from_app, slice_to_app.
Qed.

End Pathlib.

(** ** Clipping the products to the common overlap *)

Module Clip.
Import Py Pathlib.

(** [dst_file = file.parent / f'{file.stem}_clipped{file.suffix}']. *)
Definition dst_file (file : path) : path :=
  joinpath (parent file) (stem file +:+ "_clipped" +:+ suffix file).

(** An ending of product rasters as the lists below hold them: it ends in
    [.tif] with something before, and neither it nor [_clipped.tif] is an
    ending of the other. *)
Definition product_ending (extension : string) : Prop :=
  endswith extension ".tif" = true
  ∧ extension ≠ ".tif"
  ∧ endswith extension "_clipped.tif" = false
  ∧ endswith "_clipped.tif" extension = false.

#[global] Instance product_ending_dec extension : Decision (product_ending extension).
Proof. unfold product_ending. apply _. Defined.

(** The file lies under [data_dir] and its name ends with one of the
    [extensions]. *)
Definition listed (extensions : list string) (data_dir : list string)
    (file : path) : Prop :=
  under data_dir file ∧ ∃ extension, extension ∈ extensions
                                   ∧ endswith (name file) extension = true.

Section clip.

(** The content of a file, and what the operating system and GDAL decide:
    the order in which a tree is listed; the windowed copy that
    [gdal.Translate] with [projWin] makes of a file's content, or the error
    GDAL reports when it cannot cut the window; and the error mode of
    GDAL's Python bindings, which is global to a notebook: after
    [gdal.UseExceptions()] an error is raised, without that call (the
    default) the error is printed and the failed call returns [None]. *)
Context {dataset : Type}.
Variable scandir : gmap path dataset → list path.
Variable translate : dataset → list float → result dataset.
Variable use_exceptions : bool.

(** [data_dir.rglob('*' + extension)] on the tree as it is when the walk
    starts.  The walk is lazy, but the files written while it runs have
    names ending in [_clipped.tif], which no pattern used here matches. *)
Definition rglob (tree : gmap path dataset) (data_dir : list string)
    (extension : string) : list path :=
  filter (λ file, under data_dir file ∧ endswith (name file) extension = true)
         (scandir tree).

(** [gdal.Translate(destName=..., srcDS=..., projWin=...)]: open the source,
    write the windowed copy at the destination.  The loop drops the value of
    the call, a dataset or [None].  When GDAL reports an error nothing is
    written, and the call raises or returns [None] as the error mode says.
    A source that is not there raises in either mode: in the default mode
    [gdal.Open] returns [None], which the bindings refuse as a dataset. *)
Definition gdal_Translate (tree : gmap path dataset) (destName srcDS : path)
    (projWin : list float) : gmap path dataset * result unit :=
  match tree !! srcDS with
  | None =>
      (tree, Raise (if use_exceptions then External "No such file or directory"
                    else ValueError "Received a NULL pointer."))
  | Some content =>
      match translate content projWin with
      | Ok clipped => (<[destName := clipped]> tree, Ok tt)
      | Raise e => (tree, if use_exceptions then Raise e else Ok tt)
      end
  end.

(** The inner loop, [for file in data_dir.rglob(...)]: an exception ends
    it, a call that returns, with a dataset or with [None], does not. *)
Fixpoint clip_files (overlap : list float) (files : list path)
    (tree : gmap path dataset) : gmap path dataset * result unit :=
  match files with
  | [] => (tree, Ok tt)
  | file :: files =>
      match gdal_Translate tree (dst_file file) file overlap with
      | (tree, Ok _) => clip_files overlap files tree
      | (tree, Raise e) => (tree, Raise e)
      end
  end.

(** The outer loop, [for extension in files_for_mintpy]. *)
Fixpoint clip_extensions (data_dir : list string) (overlap : list float)
    (extensions : list string) (tree : gmap path dataset)
    : gmap path dataset * result unit :=
  match extensions with
  | [] => (tree, Ok tt)
  | extension :: extensions =>
      match clip_files overlap (rglob tree data_dir extension) tree with
      | (tree, Ok _) => clip_extensions data_dir overlap extensions tree
      | (tree, Raise e) => (tree, Raise e)
      end
  end.

End clip.

(** The function as the burst notebook defines it. *)
Module Burst.

(** The cell that imports GDAL goes on with [gdal.UseExceptions()]. *)
Definition use_exceptions : bool := true.

Definition files_for_mintpy : list string :=
  ["_water_mask.tif"; "_corr.tif"; "_conncomp.tif"; "_unw_phase.tif";
   "_dem.tif"; "_lv_theta.tif"; "_lv_phi.tif"].

Definition clip_hyp3_products_to_common_overlap {dataset : Type}
    (scandir : gmap path dataset → list path)
    (translate : dataset → list float → result dataset)
    (data_dir : list string) (overlap : list float) (tree : gmap path dataset)
    : gmap path dataset * result unit :=
  clip_extensions scandir translate use_exceptions data_dir overlap
                  files_for_mintpy tree.

End Burst.

(** The function as the notebook for the GAMMA products defines it. *)
Module Gamma.

(** The notebook imports GDAL and never calls [gdal.UseExceptions()]: the
    bindings stay in their default mode. *)
Definition use_exceptions : bool := false.

Definition files_for_mintpy : list string :=
  ["_water_mask.tif"; "_corr.tif"; "_unw_phase.tif"; "_dem.tif";
   "_lv_theta.tif"; "_lv_phi.tif"].

Definition clip_hyp3_products_to_common_overlap {dataset : Type}
    (scandir : gmap path dataset → list path)
    (translate : dataset → list float → result dataset)
    (data_dir : list string) (overlap : list float) (tree : gmap path dataset)
    : gmap path dataset * result unit :=
  clip_extensions scandir translate use_exceptions data_dir overlap
                  files_for_mintpy tree.

End Gamma.

(** A listing order, a windowed copy and a small tree for the examples: a
    content is the name of its source and the window it covers. *)
Definition by_key {dataset : Type} (tree : gmap path dataset) : list path :=
  elements (dom tree).

Definition window_of (content : string * list float) (projWin : list float)
    : result (string * list float) :=
  Ok (content.1, projWin).

Definition data_dir : list string := ["work"; "data"].

Definition product_dir : list string := ["work"; "data"; "S1AA_20190610_20190622"].

Definition full_frame : list float :=
  [float_of_Z 0; float_of_Z 10; float_of_Z 10; float_of_Z 0].

Definition overlap : list float :=
  [float_of_Z 5; float_of_Z 10; float_of_Z 10; float_of_Z 5].

Definition downloaded : gmap path (string * list float) :=
  {[ Path product_dir "S1AA_dem.tif" := ("dem", full_frame);
     Path product_dir "S1AA_conncomp.tif" := ("conncomp", full_frame);
     Path product_dir "S1AA_unw_phase.tif" := ("unw_phase", full_frame);
     Path product_dir "S1AA_unw_phase.png" := ("browse", full_frame) ]}.

Definition conncomp_file : path := Path product_dir "S1AA_conncomp.tif".

(** Files whose names do not end in [_clipped.tif] are as at the start. *)
Definition sources_kept {dataset : Type} (start tree : gmap path dataset) : Prop :=
  ∀ file, endswith (name file) "_clipped.tif" = false → tree !! file = start !! file.

(** The clipped copy of [file] is in place. *)
Definition clipped_in {dataset : Type}
    (translate : dataset → list float → result dataset) (window : list float)
    (start tree : gmap path dataset) (file : path) : Prop :=
  ∃ content clipped, start !! file = Some content
                   ∧ translate content window = Ok clipped
                   ∧ tree !! dst_file file = Some clipped.

(** GDAL can cut the window out of every listed file of the tree. *)
Definition readable {dataset : Type} (extensions : list string)
    (translate : dataset → list float → result dataset)
    (data_dir : list string) (overlap : list float)
    (start : gmap path dataset) : Prop :=
  ∀ file content,
    start !! file = Some content → listed extensions data_dir file →
    ∃ clipped, translate content overlap = Ok clipped.

(** Every listed file of the tree at the start has its clipped copy in
    [tree]: in the same directory, named with [_clipped] before the suffix,
    holding the windowed copy of the file's content. *)
Definition clipped_copies {dataset : Type} (extensions : list string)
    (translate : dataset → list float → result dataset)
    (data_dir : list string) (overlap : list float)
    (start tree : gmap path dataset) : Prop :=
  ∀ file content,
    start !! file = Some content → listed extensions data_dir file →
    ∃ clipped body,
      translate content overlap = Ok clipped
      ∧ tree !! dst_file file = Some clipped
      ∧ parent (dst_file file) = parent file
      ∧ name (dst_file file) = stem file +:+ "_clipped" +:+ suffix file
      ∧ name file = body +:+ ".tif"
      ∧ name (dst_file file) = body +:+ "_clipped.tif".

(** Every listed file of the tree at the start that GDAL can cut the window
    out of has its clipped copy in [tree]: in the same directory, named with
    [_clipped] before the suffix, holding the windowed copy of the file's
    content. *)
Definition translated_copies {dataset : Type} (extensions : list string)
    (translate : dataset → list float → result dataset)
    (data_dir : list string) (overlap : list float)
    (start tree : gmap path dataset) : Prop :=
  ∀ file content clipped,
    start !! file = Some content → listed extensions data_dir file →
    translate content overlap = Ok clipped →
    ∃ body,
      tree !! dst_file file = Some clipped
      ∧ parent (dst_file file) = parent file
      ∧ name (dst_file file) = stem file +:+ "_clipped" +:+ suffix file
      ∧ name file = body +:+ ".tif"
      ∧ name (dst_file file) = body +:+ "_clipped.tif".

(** GDAL cannot cut the window out of [file]. *)
Definition untranslatable {dataset : Type}
    (translate : dataset → list float → result dataset) (window : list float)
    (start : gmap path dataset) (file : path) : Prop :=
  ∃ content e, start !! file = Some content ∧ translate content window = Raise e.

(** Every path holds what it held at the start, or the clipped copy of a
    listed file of the start. *)
Definition only_copies {dataset : Type} (extensions : list string)
    (translate : dataset → list float → result dataset)
    (data_dir : list string) (overlap : list float)
    (start tree : gmap path dataset) : Prop :=
  ∀ file,
    tree !! file = start !! file
    ∨ ∃ source content clipped,
        listed extensions data_dir source
        ∧ start !! source = Some content
        ∧ translate content overlap = Ok clipped
        ∧ file = dst_file source
        ∧ tree !! file = Some clipped.

(** A windowed copy that fails on the correlation raster. *)
Definition window_unless_corr (content : string * list float) (projWin : list float)
    : result (string * list float) :=
  if decide (content.1 = "corr") then Raise (External "Computed -srcwin falls outside raster extent")
  else Ok (content.1, projWin).

Definition with_corr : gmap path (string * list float) :=
  <[ Path product_dir "S1AA_corr.tif" := ("corr", full_frame) ]> downloaded.

(** *** Names of sources and of clipped files *)

Lemma dst_file_tif directory body :
  body ≠ "" →
  dst_file (Path directory (body +:+ ".tif")) = Path directory (body +:+ "_clipped.tif").
Proof.
  intros Hbody. unfold dst_file.
  destruct (suffix_stem_tif directory body Hbody) as [-> ->]. done.
Qed.

Lemma listed_name extensions directory file :
  Forall product_ending extensions → listed extensions directory file →
  (∃ body, body ≠ "" ∧ name file = body +:+ ".tif")
  ∧ endswith (name file) "_clipped.tif" = false.
Proof.
  intros Hexts (_ & extension & Hin & Hends).
  rewrite Forall_forall in Hexts.
  destruct (Hexts extension Hin) as (Htif & Hne & Hno1 & Hno2). split.
  - destruct (endswith_inv _ _ (endswith_trans _ _ _ Hends Htif)) as [body Hbody].
    exists body. split; [|done]. intros ->.
    apply endswith_inv in Hends as [pre Hpre].
    apply endswith_inv in Htif as [pre' Hpre'].
    rewrite Hbody in Hpre. rewrite Hpre' in Hpre.
    apply (f_equal String.length) in Hpre. rewrite !length_app in Hpre.
    simpl in Hpre. destruct pre'; [|simpl in Hpre; lia].
    by apply Hne.
  - destruct (endswith (name file) "_clipped.tif") eqn:Hclipped; [|done].
    destruct (endswith_weak_total _ _ _ Hends Hclipped); congruence.
Qed.

Lemma dst_file_clipped extensions directory file :
  Forall product_ending extensions → listed extensions directory file →
  endswith (name (dst_file file)) "_clipped.tif" = true.
Proof.
  intros Hexts Hfile.
  destruct (listed_name _ _ _ Hexts Hfile) as [(body & Hbody & Hname) _].
  destruct file as [directory' file_name]. simpl in Hname. subst file_name.
  rewrite dst_file_tif by done. simpl.
  change "_clipped.tif" with ("_clipped" +:+ ".tif") at 1.
  apply (endswith_app body "_clipped.tif").
Qed.

Lemma dst_file_inj extensions directory file1 file2 :
  Forall product_ending extensions →
  listed extensions directory file1 → listed extensions directory file2 →
  dst_file file1 = dst_file file2 → file1 = file2.
Proof.
  intros Hexts H1 H2.
  destruct (listed_name _ _ _ Hexts H1) as [(body1 & Hb1 & Hn1) _].
  destruct (listed_name _ _ _ Hexts H2) as [(body2 & Hb2 & Hn2) _].
  destruct file1 as [d1 n1], file2 as [d2 n2]. simpl in *. subst n1 n2.
  rewrite !dst_file_tif by done. intros [= -> Heq].
  apply app_inj_r in Heq. by subst.
Qed.

(** *** The loops *)

Section clip_facts.

Context {dataset : Type}.
Variable scandir : gmap path dataset → list path.
Variable translate : dataset → list float → result dataset.
Variable use_exceptions : bool.
Variable directory : list string.
Variable window : list float.
Variable extensions : list string.
Variable start : gmap path dataset.

Hypothesis extensions_ok : Forall product_ending extensions.
Hypothesis scandir_lists : ∀ tree file, file ∈ scandir tree ↔ is_Some (tree !! file).
Hypothesis translate_ok : readable extensions translate directory window start.

Local Abbreviation sources_kept := (sources_kept start).
Local Abbreviation clipped_in := (clipped_in translate window start).

Lemma gdal_Translate_step tree file :
  sources_kept tree → listed extensions directory file → is_Some (start !! file) →
  ∃ tree', gdal_Translate translate use_exceptions tree (dst_file file) file window
           = (tree', Ok tt)
         ∧ sources_kept tree'
         ∧ clipped_in tree' file
         ∧ ∀ other, listed extensions directory other →
                    clipped_in tree other → clipped_in tree' other.
Proof.
  intros Hkept Hfile [content Hcontent].
  destruct (translate_ok file content Hcontent Hfile) as [clipped Hclipped].
  destruct (listed_name _ _ _ extensions_ok Hfile) as [_ Hsource].
  pose proof (dst_file_clipped _ _ _ extensions_ok Hfile) as Hdst.
  exists (<[dst_file file := clipped]> tree).
  unfold gdal_Translate. rewrite (Hkept file Hsource), Hcontent, Hclipped.
  split_and!; [done| | |].
  - intros other Hother. rewrite lookup_insert_ne; [by apply Hkept|].
    intros Heq. rewrite Heq in Hdst. congruence.
  - exists content, clipped. by rewrite lookup_insert_eq.
  - intros other Hother (content' & clipped' & Hc' & Ht' & Hl').
    exists content', clipped'. split_and!; [done|done|].
    destruct (decide (dst_file file = dst_file other)) as [Heq|Hne].
    + apply (dst_file_inj _ _ _ _ extensions_ok Hfile Hother) in Heq as <-.
      rewrite lookup_insert_eq. congruence.
    + by rewrite lookup_insert_ne.
Qed.

Lemma clip_files_spec files tree :
  Forall (λ file, listed extensions directory file ∧ is_Some (start !! file)) files →
  sources_kept tree →
  ∃ tree', clip_files translate use_exceptions window files tree = (tree', Ok tt)
         ∧ sources_kept tree'
         ∧ (∀ file, file ∈ files → clipped_in tree' file)
         ∧ ∀ other, listed extensions directory other →
                    clipped_in tree other → clipped_in tree' other.
Proof.
  intros Hfiles. revert tree.
  induction Hfiles as [|file files [Hfile Hsome] Hfiles IH]; intros tree Hkept; simpl.
  - exists tree. split_and!; [done|done| |done]. by intros file ?%elem_of_nil.
  - destruct (gdal_Translate_step tree file Hkept Hfile Hsome)
      as (tree1 & -> & Hkept1 & Hin1 & Hmono1).
    destruct (IH tree1 Hkept1) as (tree2 & -> & Hkept2 & Hin2 & Hmono2).
    exists tree2. split_and!; [done|done| |].
    + intros f [->|Hf]%elem_of_cons; [|by apply Hin2].
      by apply Hmono2.
    + intros other Hother Hc. by apply Hmono2, Hmono1.
Qed.

Lemma rglob_listed tree extension file :
  sources_kept tree → extension ∈ extensions →
  file ∈ rglob scandir tree directory extension →
  listed extensions directory file ∧ is_Some (start !! file).
Proof.
  intros Hkept Hext [[Hunder Hends] Hin%scandir_lists]%list_elem_of_filter.
  assert (listed extensions directory file) as Hlisted.
  { split; [done|]. by exists extension. }
  split; [done|].
  destruct (listed_name _ _ _ extensions_ok Hlisted) as [_ Hsource].
  by rewrite <- (Hkept file Hsource).
Qed.

Lemma listed_rglob tree extension file :
  sources_kept tree → extension ∈ extensions →
  under directory file → endswith (name file) extension = true →
  is_Some (start !! file) →
  file ∈ rglob scandir tree directory extension.
Proof.
  intros Hkept Hext Hunder Hends Hsome.
  apply list_elem_of_filter. split; [done|]. apply scandir_lists.
  assert (listed extensions directory file) as Hlisted.
  { split; [done|]. by exists extension. }
  destruct (listed_name _ _ _ extensions_ok Hlisted) as [_ Hsource].
  by rewrite (Hkept file Hsource).
Qed.

Lemma clip_extensions_steps todo tree :
  Forall (λ extension, extension ∈ extensions) todo →
  sources_kept tree →
  ∃ tree', clip_extensions scandir translate use_exceptions directory window todo tree
           = (tree', Ok tt)
         ∧ sources_kept tree'
         ∧ (∀ extension file,
              extension ∈ todo → under directory file →
              endswith (name file) extension = true → is_Some (start !! file) →
              clipped_in tree' file)
         ∧ ∀ other, listed extensions directory other →
                    clipped_in tree other → clipped_in tree' other.
Proof.
  intros Htodo. revert tree.
  induction Htodo as [|extension todo Hext Htodo IH]; intros tree Hkept; simpl.
  - exists tree. split_and!; [done|done| |done]. by intros ? ? ?%elem_of_nil.
  - destruct (clip_files_spec (rglob scandir tree directory extension) tree)
      as (tree1 & -> & Hkept1 & Hin1 & Hmono1); [|done|].
    { apply Forall_forall. intros file Hfile. by eapply rglob_listed. }
    destruct (IH tree1 Hkept1) as (tree2 & -> & Hkept2 & Hin2 & Hmono2).
    exists tree2. split_and!; [done|done| |].
    + intros ext file [->|Hin]%elem_of_cons Hunder Hends Hsome.
      * apply Hmono2; [split; [done|by exists extension]|].
        apply Hin1. by apply listed_rglob.
      * by eapply Hin2.
    + intros other Hother Hc. by apply Hmono2, Hmono1.
Qed.

(** Both loops together, from the tree as downloaded. *)
Lemma clip_extensions_spec :
  ∃ tree, clip_extensions scandir translate use_exceptions directory window
                          extensions start
          = (tree, Ok tt)
        ∧ clipped_copies extensions translate directory window start tree
        ∧ sources_kept tree.
Proof.
  destruct (clip_extensions_steps extensions start)
    as (tree & Hrun & Hkept & Hin & _); [by apply Forall_forall|done|].
  exists tree. split_and!; [done| |done].
  intros file content Hcontent Hlisted.
  pose proof Hlisted as (Hunder & extension & Hext & Hends).
  destruct (Hin extension file Hext Hunder Hends) as (c & clipped & Hc & Ht & Hl);
    [by exists content|].
  destruct (listed_name _ _ _ extensions_ok Hlisted) as [(body & Hbody & Hname) _].
  exists clipped, body. assert (c = content) as -> by congruence.
  split_and!; [done|done|done|done|done|].
  destruct file as [d n]. simpl in Hname. subst n. by rewrite dst_file_tif.
Qed.

End clip_facts.

Lemma by_key_lists {dataset : Type} (tree : gmap path dataset) (file : path) :
  file ∈ by_key tree ↔ is_Some (tree !! file).
Proof. unfold by_key. by rewrite elem_of_elements, elem_of_dom. Qed.

Lemma files_for_mintpy_ok :
  Forall product_ending Burst.files_for_mintpy
  ∧ Forall product_ending Gamma.files_for_mintpy.
Proof. split; compute_done. Qed.

(** *** Any outcome *)

Section clip_any.

Context {dataset : Type}.
Variable scandir : gmap path dataset → list path.
Variable translate : dataset → list float → result dataset.
Variable use_exceptions : bool.
Variable directory : list string.
Variable window : list float.
Variable extensions : list string.
Variable start : gmap path dataset.

Hypothesis extensions_ok : Forall product_ending extensions.
Hypothesis scandir_lists : ∀ tree file, file ∈ scandir tree ↔ is_Some (tree !! file).

Local Abbreviation sources_kept := (sources_kept start).
Local Abbreviation clipped_in := (clipped_in translate window start).
Local Abbreviation untranslatable := (untranslatable translate window start).
Local Abbreviation only_copies :=
  (only_copies extensions translate directory window start).

(** One call of [gdal.Translate] in the loop: it returns with the copy
    written, or GDAL reports an error, which is raised after
    [gdal.UseExceptions()] and passed over without. *)
Lemma gdal_Translate_any tree file content :
  sources_kept tree → only_copies tree →
  listed extensions directory file → start !! file = Some content →
  ∃ tree' outcome,
    gdal_Translate translate use_exceptions tree (dst_file file) file window
    = (tree', outcome)
    ∧ sources_kept tree' ∧ only_copies tree'
    ∧ (∀ other, listed extensions directory other →
                clipped_in tree other → clipped_in tree' other)
    ∧ (outcome = Ok tt →
       clipped_in tree' file ∨ (use_exceptions = false ∧ untranslatable file))
    ∧ (∀ e, outcome = Raise e →
            use_exceptions = true ∧ translate content window = Raise e).
Proof.
  intros Hkept Honly Hfile Hcontent.
  destruct (listed_name _ _ _ extensions_ok Hfile) as [_ Hsource].
  pose proof (dst_file_clipped _ _ _ extensions_ok Hfile) as Hdst.
  unfold gdal_Translate. rewrite (Hkept file Hsource), Hcontent.
  destruct (translate content window) as [clipped|e] eqn:Hclipped.
  - exists (<[dst_file file := clipped]> tree), (Ok tt). split_and!; [done| | | | |done].
    + intros other Hother. rewrite lookup_insert_ne; [by apply Hkept|].
      intros Heq. rewrite Heq in Hdst. congruence.
    + intros other.
      destruct (decide (dst_file file = other)) as [<-|Hne].
      * right. exists file, content, clipped. by rewrite lookup_insert_eq.
      * rewrite lookup_insert_ne by done. apply Honly.
    + intros other Hother (content' & clipped' & Hc' & Ht' & Hl').
      exists content', clipped'. split_and!; [done|done|].
      destruct (decide (dst_file file = dst_file other)) as [Heq|Hne].
      * apply (dst_file_inj _ _ _ _ extensions_ok Hfile Hother) in Heq as <-.
        rewrite lookup_insert_eq. congruence.
      * by rewrite lookup_insert_ne.
    + intros _. left. exists content, clipped. by rewrite lookup_insert_eq.
  - destruct use_exceptions.
    + exists tree, (Raise e). split_and!; [done|done|done|done|done|].
      by intros e' [= <-].
    + exists tree, (Ok tt). split_and!; [done|done|done|done| |done].
      intros _. right. split; [done|]. by exists content, e.
Qed.

Lemma clip_files_any files tree :
  Forall (λ file, listed extensions directory file ∧ is_Some (start !! file)) files →
  sources_kept tree → only_copies tree →
  ∃ tree' outcome,
    clip_files translate use_exceptions window files tree = (tree', outcome)
    ∧ sources_kept tree' ∧ only_copies tree'
    ∧ (∀ other, listed extensions directory other →
                clipped_in tree other → clipped_in tree' other)
    ∧ (outcome = Ok tt →
       ∀ file, file ∈ files →
               clipped_in tree' file ∨ (use_exceptions = false ∧ untranslatable file))
    ∧ (∀ e, outcome = Raise e →
            use_exceptions = true
            ∧ ∃ file content, listed extensions directory file
                            ∧ start !! file = Some content
                            ∧ translate content window = Raise e).
Proof.
  intros Hfiles. revert tree.
  induction Hfiles as [|file files [Hfile [content Hcontent]] Hfiles IH];
    intros tree Hkept Honly; simpl.
  - exists tree, (Ok tt). split_and!; try done. by intros _ file ?%elem_of_nil.
  - destruct (gdal_Translate_any tree file content Hkept Honly Hfile Hcontent)
      as (tree1 & outcome1 & -> & Hkept1 & Honly1 & Hmono1 & Hok1 & Hraise1).
    destruct outcome1 as [[]|e1].
    + destruct (IH tree1 Hkept1 Honly1)
        as (tree2 & outcome2 & -> & Hkept2 & Honly2 & Hmono2 & Hok2 & Hraise2).
      exists tree2, outcome2. split_and!; try done.
      * intros other Hother Hc. by apply Hmono2, Hmono1.
      * intros Hout f [->|Hf]%elem_of_cons; [|by apply Hok2].
        destruct (Hok1 eq_refl) as [Hc|Hpassed]; [|by right].
        left. by apply Hmono2.
    + exists tree1, (Raise e1). split_and!; try done.
      intros e [= <-]. destruct (Hraise1 e1 eq_refl) as [Hmode Hfailed].
      split; [done|]. by exists file, content.
Qed.

Lemma clip_extensions_any todo tree :
  Forall (λ extension, extension ∈ extensions) todo →
  sources_kept tree → only_copies tree →
  ∃ tree' outcome,
    clip_extensions scandir translate use_exceptions directory window todo tree
    = (tree', outcome)
    ∧ sources_kept tree' ∧ only_copies tree'
    ∧ (∀ other, listed extensions directory other →
                clipped_in tree other → clipped_in tree' other)
    ∧ (outcome = Ok tt →
       ∀ extension file,
         extension ∈ todo → under directory file →
         endswith (name file) extension = true → is_Some (start !! file) →
         clipped_in tree' file ∨ (use_exceptions = false ∧ untranslatable file))
    ∧ (∀ e, outcome = Raise e →
            use_exceptions = true
            ∧ ∃ file content, listed extensions directory file
                            ∧ start !! file = Some content
                            ∧ translate content window = Raise e).
Proof.
  intros Htodo. revert tree.
  induction Htodo as [|extension todo Hext Htodo IH]; intros tree Hkept Honly; simpl.
  - exists tree, (Ok tt). split_and!; try done. by intros _ ? ? ?%elem_of_nil.
  - destruct (clip_files_any (rglob scandir tree directory extension) tree)
      as (tree1 & outcome1 & -> & Hkept1 & Honly1 & Hmono1 & Hok1 & Hraise1);
      [|done|done|].
    { apply Forall_forall. intros file Hfile.
      by eapply (rglob_listed scandir directory extensions start). }
    destruct outcome1 as [[]|e1].
    + destruct (IH tree1 Hkept1 Honly1)
        as (tree2 & outcome2 & -> & Hkept2 & Honly2 & Hmono2 & Hok2 & Hraise2).
      exists tree2, outcome2. split_and!; try done.
      * intros other Hother Hc. by apply Hmono2, Hmono1.
      * intros Hout ext file [->|Hin]%elem_of_cons Hunder Hends Hsome.
        -- destruct (Hok1 eq_refl file) as [Hc|Hpassed]; [|  |by right].
           ++ by apply (listed_rglob scandir directory extensions start).
           ++ left. apply Hmono2; [split; [done|by exists extension]|done].
        -- by eapply Hok2.
    + exists tree1, (Raise e1). split_and!; try done.
Qed.

End clip_any.

(** Both loops from the tree as it is, whatever the outcome: a run that
    returns has passed every listed file, leaving its clipped copy unless
    GDAL failed on it in the default error mode; a run that raises was in
    exception mode and raises what GDAL reported for a listed file. *)
Lemma clip_extensions_outcome {dataset : Type}
    (scandir : gmap path dataset → list path)
    (translate : dataset → list float → result dataset)
    (use_exceptions : bool)
    (data_dir : list string) (overlap : list float)
    (extensions : list string) (start : gmap path dataset) :
  Forall product_ending extensions →
  (∀ tree file, file ∈ scandir tree ↔ is_Some (tree !! file)) →
  ∃ tree outcome,
    clip_extensions scandir translate use_exceptions data_dir overlap extensions start
    = (tree, outcome)
    ∧ sources_kept start tree
    ∧ only_copies extensions translate data_dir overlap start tree
    ∧ (outcome = Ok tt →
       ∀ file, listed extensions data_dir file → is_Some (start !! file) →
               clipped_in translate overlap start tree file
               ∨ (use_exceptions = false ∧ untranslatable translate overlap start file))
    ∧ (∀ e, outcome = Raise e →
            use_exceptions = true
            ∧ ∃ file content, listed extensions data_dir file
                            ∧ start !! file = Some content
                            ∧ translate content overlap = Raise e).
Proof.
  intros Hexts Hscandir.
  destruct (clip_extensions_any scandir translate use_exceptions data_dir overlap
              extensions start Hexts Hscandir extensions start)
    as (tree & outcome & Hrun & Hkept & Honly & _ & Hok & Hraise);
    [by apply Forall_forall|done|by left|].
  exists tree, outcome. split_and!; try done.
  intros Hout file (Hunder & extension & Hext & Hends) Hsome. by eapply Hok.
Qed.

(** In the default error mode the loops pass over every failure and
    return; each listed file GDAL can translate has its copy. *)
Lemma clip_extensions_default_mode {dataset : Type}
    (scandir : gmap path dataset → list path)
    (translate : dataset → list float → result dataset)
    (data_dir : list string) (overlap : list float)
    (extensions : list string) (start : gmap path dataset) :
  Forall product_ending extensions →
  (∀ tree file, file ∈ scandir tree ↔ is_Some (tree !! file)) →
  ∃ tree,
    clip_extensions scandir translate false data_dir overlap extensions start
    = (tree, Ok tt)
    ∧ translated_copies extensions translate data_dir overlap start tree
    ∧ only_copies extensions translate data_dir overlap start tree.
Proof.
  intros Hexts Hscandir.
  destruct (clip_extensions_outcome scandir translate false data_dir overlap _ start
              Hexts Hscandir) as (tree & outcome & Hrun & _ & Honly & Hok & Hraise).
  destruct outcome as [[]|e]; [|by destruct (Hraise e eq_refl) as [? _]].
  exists tree. split_and!; [done| |done].
  intros file content clipped Hcontent Hlisted Ht.
  destruct (Hok eq_refl file Hlisted) as [(c & cl & Hc & Ht' & Hl)|(_ & c & e & Hc & He)];
    [by eexists| |congruence].
  destruct (listed_name _ _ _ Hexts Hlisted) as [(body & Hbody & Hname) _].
  exists body. assert (cl = clipped) as -> by congruence.
  split_and!; [done|done|done|done|].
  destruct file as [d n]. simpl in Hname. subst n. by rewrite dst_file_tif.
Qed.

Lemma notebook_extensions_ok extensions :
  extensions = Burst.files_for_mintpy ∨ extensions = Gamma.files_for_mintpy →
  Forall product_ending extensions.
Proof. intros [-> | ->]; apply files_for_mintpy_ok. Qed.

(** *** The stated property *)


(** What a failed translation does in each notebook, on a tree where GDAL
    fails on the correlation raster: the burst notebook's function raises
    there and the DEM raster, later in the list, gets no copy; the function
    of the notebook for the GAMMA products passes over the failure, returns
    and has clipped the DEM raster. *)
Lemma failed_translation_by_notebook :
  (Burst.clip_hyp3_products_to_common_overlap by_key window_unless_corr data_dir
     overlap with_corr).2
  = Raise (External "Computed -srcwin falls outside raster extent")
  ∧ (Burst.clip_hyp3_products_to_common_overlap by_key window_unless_corr data_dir
       overlap with_corr).1 !! Path product_dir "S1AA_dem_clipped.tif" = None
  ∧ (Gamma.clip_hyp3_products_to_common_overlap by_key window_unless_corr data_dir
       overlap with_corr).2 = Ok tt
  ∧ (Gamma.clip_hyp3_products_to_common_overlap by_key window_unless_corr data_dir
       overlap with_corr).1 !! Path product_dir "S1AA_dem_clipped.tif"
    = Some ("dem", overlap)
  ∧ (Gamma.clip_hyp3_products_to_common_overlap by_key window_unless_corr data_dir
       overlap with_corr).1 !! Path product_dir "S1AA_corr_clipped.tif" = None.
Proof. split_and!; vm_compute; reflexivity. Qed.



(** *** Further properties *)

(** Whether the clipping returns or raises, in either notebook and either
    error mode of GDAL: no file is removed, every file whose name does not
    end in [_clipped.tif] keeps its content, nothing outside [data_dir] is
    touched, and whatever else differs from the start is the windowed copy
    of a listed file. *)
Lemma clip_touches_only_copies {dataset : Type}
    (scandir : gmap path dataset → list path)
    (translate : dataset → list float → result dataset)
    (use_exceptions : bool)
    (data_dir : list string) (overlap : list float)
    (files_for_mintpy : list string) (start tree : gmap path dataset)
    (outcome : result unit) :
  files_for_mintpy = Burst.files_for_mintpy
  ∨ files_for_mintpy = Gamma.files_for_mintpy →
  (∀ tree file, file ∈ scandir tree ↔ is_Some (tree !! file)) →
  clip_extensions scandir translate use_exceptions data_dir overlap files_for_mintpy
                  start
  = (tree, outcome) →
  (∀ file, is_Some (start !! file) → is_Some (tree !! file))
  ∧ (∀ file, endswith (name file) "_clipped.tif" = false →
             tree !! file = start !! file)
  ∧ (∀ file, ¬ under data_dir file → tree !! file = start !! file)
  ∧ only_copies files_for_mintpy translate data_dir overlap start tree.
Proof.
  intros Hexts%notebook_extensions_ok Hscandir Hrun.
  destruct (clip_extensions_outcome scandir translate use_exceptions data_dir overlap
              _ start Hexts Hscandir) as (tree' & outcome' & Hrun' & Hkept & Honly & _).
  rewrite Hrun in Hrun'. injection Hrun' as <- <-.
  split_and!; [| done | | done].
  - intros file Hsome.
    destruct (Honly file) as [->|(? & ? & ? & _ & _ & _ & _ & ->)]; [done|by eexists].
  - intros file Hout.
    destruct (Honly file) as [?|(source & ? & ? & [Hunder _] & _ & _ & -> & _)]; [done|].
    destruct Hout. exact Hunder.
Qed.

Lemma clip_touches_only_copies_witness :
  (Burst.clip_hyp3_products_to_common_overlap by_key window_unless_corr
     data_dir overlap with_corr).1 !! Path ["home"] "S1AA_dem.tif"
  = with_corr !! Path ["home"] "S1AA_dem.tif".
Proof.
  destruct (clip_touches_only_copies by_key window_unless_corr Burst.use_exceptions
              data_dir overlap
              Burst.files_for_mintpy with_corr _ _ (or_introl eq_refl) by_key_lists
              (surjective_pairing
                 (Burst.clip_hyp3_products_to_common_overlap
                    by_key window_unless_corr data_dir overlap with_corr)))
    as (_ & _ & Houtside & _).
  apply Houtside. compute_done.
Defined.



(** Running the clipping a second time changes nothing, in either notebook
    and either error mode of GDAL: the clipped copies are not clipped again
    and each is rewritten with the same content. *)
Lemma clip_again_changes_nothing {dataset : Type}
    (scandir : gmap path dataset → list path)
    (translate : dataset → list float → result dataset)
    (use_exceptions : bool)
    (data_dir : list string) (overlap : list float)
    (files_for_mintpy : list string) (start tree : gmap path dataset) :
  files_for_mintpy = Burst.files_for_mintpy
  ∨ files_for_mintpy = Gamma.files_for_mintpy →
  (∀ tree file, file ∈ scandir tree ↔ is_Some (tree !! file)) →
  clip_extensions scandir translate use_exceptions data_dir overlap files_for_mintpy
                  start
  = (tree, Ok tt) →
  clip_extensions scandir translate use_exceptions data_dir overlap files_for_mintpy
                  tree
  = (tree, Ok tt).
Proof.
  intros Hexts%notebook_extensions_ok Hscandir Hrun.
  destruct (clip_extensions_outcome scandir translate use_exceptions data_dir overlap
              _ start Hexts Hscandir)
    as (tree' & outcome' & Hrun' & Hkept & _ & Hok & _).
  rewrite Hrun in Hrun'. injection Hrun' as <- <-. specialize (Hok eq_refl).
  assert (∀ source content,
            listed files_for_mintpy data_dir source → tree !! source = Some content →
            (∃ clipped, translate content overlap = Ok clipped
                      ∧ tree !! dst_file source = Some clipped)
            ∨ (use_exceptions = false ∧ ∃ e, translate content overlap = Raise e))
    as Hcopy.
  { intros source content Hlisted Hcontent.
    destruct (listed_name _ _ _ Hexts Hlisted) as [_ Hname].
    rewrite (Hkept source Hname) in Hcontent.
    destruct (Hok source Hlisted) as [(c & clipped & Hc & Ht & Hl)|(Hmode & c & e & Hc & He)];
      [by eexists| |].
    - left. exists clipped. split; [congruence|done].
    - right. split; [done|]. exists e. congruence. }
  destruct (clip_extensions_outcome scandir translate use_exceptions data_dir overlap
              _ tree Hexts Hscandir)
    as (tree2 & outcome2 & -> & _ & Honly2 & _ & Hraise2).
  assert (tree2 = tree) as ->.
  { apply map_eq. intros file.
    destruct (Honly2 file)
      as [?|(source & content & clipped & Hlisted & Hs & Ht & -> & ->)]; [done|].
    destruct (Hcopy source content Hlisted Hs) as [(clipped' & Ht' & ->)|(_ & e & He)];
      congruence. }
  destruct outcome2 as [[]|e]; [done|].
  destruct (Hraise2 e eq_refl) as (Hmode & file & content & Hlisted & Hs & Ht).
  destruct (Hcopy file content Hlisted Hs) as [(clipped & Ht' & _)|(Hmode' & _)];
    congruence.
Qed.

Lemma clip_again_changes_nothing_witness :
  Burst.clip_hyp3_products_to_common_overlap by_key window_of data_dir overlap
    (Burst.clip_hyp3_products_to_common_overlap by_key window_of data_dir overlap
                                                downloaded).1
  = ((Burst.clip_hyp3_products_to_common_overlap by_key window_of data_dir overlap
                                                 downloaded).1, Ok tt).
Proof.
  apply (clip_again_changes_nothing by_key window_of Burst.use_exceptions data_dir
           overlap Burst.files_for_mintpy downloaded _ (or_introl eq_refl)
           by_key_lists).
  rewrite (surjective_pairing
             (clip_extensions by_key window_of Burst.use_exceptions data_dir overlap
                              Burst.files_for_mintpy downloaded)) at 1.
  apply (f_equal (pair _)). vm_compute. reflexivity.
Defined.

End Clip.

(** ** The MintPy configuration file *)

Module Config.
Import Pathlib.

Definition newline_char : ascii := "010"%char.
Definition newline : string := String newline_char "".

(** The text of an f-string written as lines: it opens with a line break
    and every line ends with one. *)
Definition text_of (lines : list string) : string :=
  newline +:+ foldr (λ line rest, line +:+ newline +:+ rest) "" lines.

(** [c in s] for a character. *)
Fixpoint contains (s : string) (c : ascii) : bool :=
  match s with
  | "" => false
  | String a rest => if decide (a = c) then true else contains rest c
  end.

(** [text.split('\n')]. *)
Fixpoint split_lines (text : string) : list string :=
  match text with
  | "" => [""]
  | String a rest =>
      if decide (a = newline_char) then "" :: split_lines rest
      else match split_lines rest with
           | line :: lines => String a line :: lines
           | [] => [String a ""]
           end
  end.

(** [s.rstrip(' ')] and [s.startswith(prefix)]. *)
Fixpoint rstrip (s : string) : string :=
  match s with
  | "" => ""
  | String a rest =>
      match rstrip rest with
      | "" => if decide (a = " "%char) then "" else String a ""
      | kept => String a kept
      end
  end.

Definition startswith (s prefix : string) : bool := String.prefix prefix s.

(** [line.partition('=')]: the text before the first [=] and the text
    after it, when there is one. *)
Fixpoint partition_eq (line : string) : option (string * string) :=
  match line with
  | "" => None
  | String a rest =>
      if decide (a = "="%char) then Some ("", rest)
      else match partition_eq rest with
           | Some (before, after) => Some (String a before, after)
           | None => None
           end
  end.

(** A line of the file read as a setting: lines that start with [#] are
    comments; otherwise the key is what stands before the first [=],
    without the blanks that pad it, and the rest of the line follows. *)
Definition setting (line : string) : option (string * string) :=
  if startswith line "#" then None
  else match partition_eq line with
       | Some (before, after) => Some (rstrip before, after)
       | None => None
       end.

(** The settings that name dataset files: [mintpy.load.*File]. *)
Definition is_dataset_key (key : string) : bool :=
  startswith key "mintpy.load." && endswith key "File".

(** The burst notebook. *)
Module Burst.

Definition mintpy_config_lines (data_dir : string) : list string :=
  [ "mintpy.load.processor        = hyp3";
    "##---------interferogram datasets:";
    "mintpy.load.unwFile          = " +:+ data_dir +:+ "/*/*_unw_phase_clipped.tif";
    "mintpy.load.corFile          = " +:+ data_dir +:+ "/*/*_corr_clipped.tif";
    "mintpy.load.connCompFile     = " +:+ data_dir +:+ "/*/*_conncomp_clipped.tif";
    "##---------geometry datasets:";
    "mintpy.load.demFile          = " +:+ data_dir +:+ "/*/*_dem_clipped.tif";
    "mintpy.load.incAngleFile     = " +:+ data_dir +:+ "/*/*_lv_theta_clipped.tif";
    "mintpy.load.azAngleFile      = " +:+ data_dir +:+ "/*/*_lv_phi_clipped.tif";
    "mintpy.load.waterMaskFile    = " +:+ data_dir +:+ "/*/*_water_mask_clipped.tif";
    "mintpy.troposphericDelay.method = no";
    "##---------misc:";
    "mintpy.plot = no";
    "mintpy.network.coherenceBased = no" ].

(** The argument of [mintpy_config.write_text]. *)
Definition mintpy_config_text (data_dir : string) : string :=
  text_of (mintpy_config_lines data_dir).

End Burst.

(** The notebook for the GAMMA products. *)
Module Gamma.

Definition mintpy_config_lines (data_dir : string) : list string :=
  [ "mintpy.load.processor        = hyp3";
    "##---------interferogram datasets";
    "mintpy.load.unwFile          = " +:+ data_dir +:+ "/*/*_unw_phase_clipped.tif";
    "mintpy.load.corFile          = " +:+ data_dir +:+ "/*/*_corr_clipped.tif";
    "##---------geometry datasets:";
    "mintpy.load.demFile          = " +:+ data_dir +:+ "/*/*_dem_clipped.tif";
    "mintpy.load.incAngleFile     = " +:+ data_dir +:+ "/*/*_lv_theta_clipped.tif";
    "mintpy.load.azAngleFile      = " +:+ data_dir +:+ "/*/*_lv_phi_clipped.tif";
    "mintpy.load.waterMaskFile    = " +:+ data_dir +:+ "/*/*_water_mask_clipped.tif";
    "# mintpy.troposphericDelay.method = no" ].

Definition mintpy_config_text (data_dir : string) : string :=
  text_of (mintpy_config_lines data_dir).

End Gamma.

(** A list of lines references clipped rasters only, for the endings
    [extensions] that the clipping of the same notebook handles: a line that
    sets a dataset file sets it to the pattern
    [data_dir/*/*<product>_clipped.tif] of the clipped copies of one of the
    products. *)
Definition references_clipped (extensions : list string) (data_dir : string)
    (lines : list string) : Prop :=
  ∀ line key value,
    line ∈ lines → setting line = Some (key, value) → is_dataset_key key = true →
    ∃ product, value = " " +:+ data_dir +:+ "/*/*" +:+ product +:+ "_clipped.tif"
             ∧ product +:+ ".tif" ∈ extensions.

(** The keys that a list of lines sets. *)
Definition keys_set (lines : list string) : list string :=
  omap (λ line, fst <$> setting line) lines.

Definition example_dir : string := "/home/user/2014_mount_edgecumbe/data".

(** *** Lines of a text *)

Lemma contains_app s1 s2 c :
  contains (s1 +:+ s2) c = contains s1 c || contains s2 c.
Proof.
  induction s1 as [|a s1 IH]; [done|].
  change (contains (String a (s1 +:+ s2)) c = contains (String a s1) c || contains s2 c).
  simpl. by destruct (decide (a = c)).
Qed.

Lemma split_lines_line line rest :
  contains line newline_char = false →
  split_lines (line +:+ newline +:+ rest) = line :: split_lines rest.
Proof.
  induction line as [|a line IH]; [done|].
  change (String a line +:+ newline +:+ rest)
    with (String a (line +:+ newline +:+ rest)).
  simpl. destruct (decide (a = newline_char)); [done|].
  intros Hline. by rewrite IH.
Qed.

(** A text written as lines splits into these lines, between the empty
    string before the opening line break and the one after the last. *)
Lemma split_lines_text_of lines :
  Forall (λ line, contains line newline_char = false) lines →
  split_lines (text_of lines) = "" :: lines ++ [""].
Proof.
  intros Hlines. unfold text_of.
  change (newline +:+ ?rest) with ("" +:+ newline +:+ rest).
  rewrite split_lines_line by done. f_equal.
  induction Hlines as [|line lines Hline _ IH]; [done|].
  simpl. by rewrite split_lines_line, IH.
Qed.

Ltac no_newline :=
  repeat first
    [ apply Forall_nil_2
    | apply Forall_cons_2
    | rewrite contains_app
    | apply orb_false_intro
    | assumption
    | reflexivity ].

Lemma lines_without_newline data_dir :
  contains data_dir newline_char = false →
  Forall (λ line, contains line newline_char = false) (Burst.mintpy_config_lines data_dir)
  ∧ Forall (λ line, contains line newline_char = false) (Gamma.mintpy_config_lines data_dir).
Proof. intros Hdir. split; no_newline. Qed.

(** *** The stated property *)

Ltac each_line H :=
  repeat (apply elem_of_cons in H as [->|H]); [..|by apply elem_of_nil in H].

Ltac product p := exists p; split; [reflexivity|compute_done].

Ltac dataset_line Hsetting Hkey :=
  vm_compute in Hsetting;
  first [ discriminate Hsetting
        | injection Hsetting as <- <-;
          first [ discriminate Hkey
                | product "_water_mask" | product "_corr" | product "_conncomp"
                | product "_unw_phase" | product "_dem" | product "_lv_theta"
                | product "_lv_phi" ] ].

Lemma burst_references_clipped data_dir :
  references_clipped Clip.Burst.files_for_mintpy data_dir
                     (Burst.mintpy_config_lines data_dir).
Proof.
  intros line key value Hin Hsetting Hkey.
  unfold Burst.mintpy_config_lines in Hin. each_line Hin.
  all: dataset_line Hsetting Hkey.
Qed.

Lemma gamma_references_clipped data_dir :
  references_clipped Clip.Gamma.files_for_mintpy data_dir
                     (Gamma.mintpy_config_lines data_dir).
Proof.
  intros line key value Hin Hsetting Hkey.
  unfold Gamma.mintpy_config_lines in Hin. each_line Hin.
  all: dataset_line Hsetting Hkey.
Qed.

(** C7.  The configuration file references clipped rasters only.  In both
    notebooks every line of the generated text that sets a dataset file
    (unwrapped phase, correlation, DEM, incidence angle, azimuth angle,
    water mask and, in the burst notebook, connected components) sets it to
    [data_dir/*/*<product>_clipped.tif], a pattern under [data_dir] that
    ends in [_clipped.tif], for a product that the clipping of the same
    notebook handles; these settings are all present; and the lines of the
    written text are the lines as laid out whenever [data_dir] holds no line
    break. *)
Theorem mintpy_config_references_clipped (data_dir : string) :
  references_clipped Clip.Burst.files_for_mintpy data_dir
                     (Burst.mintpy_config_lines data_dir)
  ∧ references_clipped Clip.Gamma.files_for_mintpy data_dir
                       (Gamma.mintpy_config_lines data_dir)
  ∧ filter (λ key, is_dataset_key key = true)
           (keys_set (Burst.mintpy_config_lines data_dir))
    = ["mintpy.load.unwFile"; "mintpy.load.corFile"; "mintpy.load.connCompFile";
       "mintpy.load.demFile"; "mintpy.load.incAngleFile";
       "mintpy.load.azAngleFile"; "mintpy.load.waterMaskFile"]
  ∧ filter (λ key, is_dataset_key key = true)
           (keys_set (Gamma.mintpy_config_lines data_dir))
    = ["mintpy.load.unwFile"; "mintpy.load.corFile"; "mintpy.load.demFile";
       "mintpy.load.incAngleFile"; "mintpy.load.azAngleFile";
       "mintpy.load.waterMaskFile"]
  ∧ (contains data_dir newline_char = false →
     split_lines (Burst.mintpy_config_text data_dir)
     = "" :: Burst.mintpy_config_lines data_dir ++ [""]
     ∧ split_lines (Gamma.mintpy_config_text data_dir)
       = "" :: Gamma.mintpy_config_lines data_dir ++ [""]).
Proof.
  split_and!.
  - apply burst_references_clipped.
  - apply gamma_references_clipped.
  - reflexivity.
  - reflexivity.
  - intros Hdir. destruct (lines_without_newline data_dir Hdir) as [Hb Hg].
    split; by apply split_lines_text_of.
Qed.

Lemma mintpy_config_references_clipped_witness :
  (∃ product,
      " /home/user/2014_mount_edgecumbe/data/*/*_dem_clipped.tif"
      = " " +:+ example_dir +:+ "/*/*" +:+ product +:+ "_clipped.tif"
      ∧ product +:+ ".tif" ∈ Clip.Gamma.files_for_mintpy)
  ∧ split_lines (Burst.mintpy_config_text example_dir)
    = "" :: Burst.mintpy_config_lines example_dir ++ [""]
  ∧ split_lines (Gamma.mintpy_config_text example_dir)
    = "" :: Gamma.mintpy_config_lines example_dir ++ [""].
Proof.
  destruct (mintpy_config_references_clipped example_dir)
    as (_ & Hgamma & _ & _ & Hlines).
  split; [|apply Hlines; reflexivity].
  apply (Hgamma "mintpy.load.demFile          = /home/user/2014_mount_edgecumbe/data/*/*_dem_clipped.tif"
                "mintpy.load.demFile").
  - unfold Gamma.mintpy_config_lines. do 5 apply list_elem_of_further.
    apply list_elem_of_here.
  - reflexivity.
  - reflexivity.
Defined.

(** *** A further property: nothing that is clipped is left out *)

Ltac referenced data_dir padded key product :=
  exists (padded +:+ data_dir +:+ "/*/*" +:+ product +:+ "_clipped.tif"), key, product;
  split_and!;
  [ repeat first [apply list_elem_of_here | apply list_elem_of_further]
  | reflexivity | reflexivity | reflexivity ].

Ltac some_setting data_dir :=
  first
    [ referenced data_dir "mintpy.load.unwFile          = " "mintpy.load.unwFile" "_unw_phase"
    | referenced data_dir "mintpy.load.corFile          = " "mintpy.load.corFile" "_corr"
    | referenced data_dir "mintpy.load.connCompFile     = " "mintpy.load.connCompFile" "_conncomp"
    | referenced data_dir "mintpy.load.demFile          = " "mintpy.load.demFile" "_dem"
    | referenced data_dir "mintpy.load.incAngleFile     = " "mintpy.load.incAngleFile" "_lv_theta"
    | referenced data_dir "mintpy.load.azAngleFile      = " "mintpy.load.azAngleFile" "_lv_phi"
    | referenced data_dir "mintpy.load.waterMaskFile    = " "mintpy.load.waterMaskFile" "_water_mask" ].

(** In each notebook every ending that the clipping handles is loaded by
    the configuration: for each entry of [files_for_mintpy] some line of the
    text sets a dataset file to the pattern of its clipped copies. *)
Lemma every_clipped_product_is_loaded (data_dir : string) :
  Forall (λ extension,
            ∃ line key product,
              line ∈ Burst.mintpy_config_lines data_dir
              ∧ setting line
                = Some (key, " " +:+ data_dir +:+ "/*/*" +:+ product +:+ "_clipped.tif")
              ∧ is_dataset_key key = true
              ∧ extension = product +:+ ".tif")
         Clip.Burst.files_for_mintpy
  ∧ Forall (λ extension,
              ∃ line key product,
                line ∈ Gamma.mintpy_config_lines data_dir
                ∧ setting line
                  = Some (key, " " +:+ data_dir +:+ "/*/*" +:+ product +:+ "_clipped.tif")
                ∧ is_dataset_key key = true
                ∧ extension = product +:+ ".tif")
           Clip.Gamma.files_for_mintpy.
Proof.
  split.
  - unfold Clip.Burst.files_for_mintpy, Burst.mintpy_config_lines.
    repeat (apply Forall_cons_2; [some_setting data_dir|]). apply Forall_nil_2.
  - unfold Clip.Gamma.files_for_mintpy, Gamma.mintpy_config_lines.
    repeat (apply Forall_cons_2; [some_setting data_dir|]). apply Forall_nil_2.
Qed.

End Config.

(** ** Running the search-parameters notebook again *)

Module Rerun.
Import Py Neighbors.

(** What indexing a dictionary or a list raises. *)
Inductive lookup_error :=
  | KeyError (key : string)
  | IndexError.

(** [job.job_parameters['granules'][0]]. *)
Definition first_granule (previous : job) : lookup_error + string :=
  match job_parameters previous !! "granules" with
  | None => inl (KeyError "granules")
  | Some [] => inl IndexError
  | Some (granule :: _) => inr granule
  end.

(** [processed_granules = [job.job_parameters['granules'][0]
                           for job in previous_jobs]]. *)
Fixpoint processed_granules (previous_jobs : list job) : lookup_error + list string :=
  match previous_jobs with
  | [] => inr []
  | previous :: previous_jobs =>
      match first_granule previous with
      | inl e => inl e
      | inr granule =>
          match processed_granules previous_jobs with
          | inl e => inl e
          | inr granules => inr (granule :: granules)
          end
      end
  end.

(** The cell up to the list of unprocessed granules: [previous_jobs] is
    what [hyp3.find_jobs] returned and [search] the outcome of the search,
    which is not made when the comprehension before it raises. *)
Definition unprocessed_after (previous_jobs : list job)
    (search : result ASFSearchResults) : lookup_error + result (list ASFProduct) :=
  match processed_granules previous_jobs with
  | inl e => inl e
  | inr processed => inr (unprocessed_granules processed search)
  end.

(** A job as the service could return it without the granules parameter. *)
Definition job_without_granules : job :=
  {| job_parameters := ∅; job_type := "INSAR_GAMMA"; name := "Project Name" |}.

(** *** Properties *)

Lemma processed_granules_inr previous_jobs granules :
  processed_granules previous_jobs = inr granules →
  Forall2 (λ previous granule, first_granule previous = inr granule)
          previous_jobs granules.
Proof.
  revert granules. induction previous_jobs as [|previous previous_jobs IH];
    intros granules; simpl.
  - intros [= <-]. constructor.
  - destruct (first_granule previous) as [e|granule] eqn:Hfirst; [done|].
    destruct (processed_granules previous_jobs) as [e|rest]; [done|].
    intros [= <-]. constructor; [done|]. by apply IH.
Qed.

(** A granule for which a job was prepared and is among the previous jobs
    is not listed as unprocessed again, whatever the search returns. *)
Lemma submitted_granule_not_unprocessed
    (stack_from_product : ASFProduct → result ASFSearchResults)
    granule jobs prepared previous_jobs search unprocessed :
  get_jobs_for_granule stack_from_product granule = Ok jobs →
  prepared ∈ jobs → prepared ∈ previous_jobs →
  unprocessed_after previous_jobs search = inr (Ok unprocessed) →
  ∀ again, again ∈ unprocessed → sceneName again ≠ sceneName granule.
Proof.
  unfold get_jobs_for_granule, unprocessed_after.
  destruct (get_neighbors _ _ _ _) as [names|e]; simpl; [|done].
  intros [= <-] (neighbor & -> & _)%list_elem_of_fmap Hprevious.
  destruct (processed_granules previous_jobs) as [e|processed] eqn:Hprocessed; [done|].
  apply processed_granules_inr in Hprocessed.
  assert (sceneName granule ∈ processed) as Hin.
  { apply list_elem_of_lookup in Hprevious as [i Hi].
    destruct (Forall2_lookup_l _ _ _ _ _ Hprocessed Hi) as (g & Hg & Hfirst).
    unfold first_granule, job_for in Hfirst. simpl in Hfirst.
    rewrite lookup_insert_eq in Hfirst. injection Hfirst as <-.
    by eapply list_elem_of_lookup_2. }
  intros [= Hun]. unfold unprocessed_granules in Hun.
  destruct search as [results|e]; simpl in Hun; [|done].
  destruct (raise_if_incomplete results); simpl in Hun; [|done].
  injection Hun as <-.
  intros again [Hnot _]%list_elem_of_filter Heq. apply Hnot. by rewrite Heq.
Qed.

Lemma submitted_granule_not_unprocessed_witness :
  sceneName (Product "S1A_IW_SLC__1SDV_20230418" 12) ≠ sceneName april_granule.
Proof.
  refine (submitted_granule_not_unprocessed complete_stack april_granule
           [job_for "S1A_IW_SLC__1SDV_20230406" "S1B_IW_SLC__1SDV_20230313";
            job_for "S1A_IW_SLC__1SDV_20230406" "S1A_IW_SLC__1SDV_20230325"]
           (job_for "S1A_IW_SLC__1SDV_20230406" "S1A_IW_SLC__1SDV_20230325")
           [job_for "S1A_IW_SLC__1SDV_20230406" "S1A_IW_SLC__1SDV_20230325"]
           (Ok (SearchResults [april_granule; Product "S1A_IW_SLC__1SDV_20230418" 12]
                              true))
           [Product "S1A_IW_SLC__1SDV_20230418" 12] _ _ _ _
           (Product "S1A_IW_SLC__1SDV_20230418" 12) _).
  - reflexivity.
  - apply list_elem_of_further, list_elem_of_here.
  - apply list_elem_of_here.
  - reflexivity.
  - apply list_elem_of_here.
Defined.

(** A previous job without a ['granules'] parameter, or with an empty
    one, ends the cell with the lookup error of the first such job, before
    the search results are looked at. *)
Lemma processed_granules_lookup_error before broken after granules e search :
  processed_granules before = inr granules →
  first_granule broken = inl e →
  processed_granules (before ++ broken :: after) = inl e
  ∧ unprocessed_after (before ++ broken :: after) search = inl e.
Proof.
  intros Hbefore Hbroken.
  assert (processed_granules (before ++ broken :: after) = inl e) as Hraise.
  { revert granules Hbefore. induction before as [|previous before IH];
      intros granules; simpl.
    - intros _. by rewrite Hbroken.
    - destruct (first_granule previous); [done|].
      destruct (processed_granules before) as [|rest] eqn:Hrest; [done|].
      intros _. by rewrite (IH rest). }
  split; [done|]. unfold unprocessed_after. by rewrite Hraise.
Qed.

Lemma processed_granules_lookup_error_witness :
  processed_granules [job_for "A" "B"; job_without_granules; job_for "C" "D"]
  = inl (KeyError "granules")
  ∧ unprocessed_after [job_for "A" "B"; job_without_granules; job_for "C" "D"]
                      (Ok (SearchResults [] true))
    = inl (KeyError "granules").
Proof.
  apply (processed_granules_lookup_error [job_for "A" "B"] job_without_granules
           [job_for "C" "D"] ["A"]); reflexivity.
Defined.

End Rerun.

(** ** Building the stack table *)

Module Stack.
Import Py.

(** The properties of a product that the cell and the pairing loop read;
    ['startTime'] is the text the catalog returns. *)
Record ASFProduct := Product {
  sceneName : string;
  startTime : string;
  temporalBaseline : Z
}.

(** A row of the data frame once [startTime] is parsed: an instant, as a
    whole number of seconds. *)
Record row := Row { name : string; time : Z; baseline : Z }.

(** What the result lists of the search package raise when they are indexed
    out of range. *)
Definition IndexError : exn := External "IndexError: list index out of range".

(** The two columns the pairing loop reads. *)
Definition to_scene (r : row) : Sbas.scene := Sbas.Scene (name r) (baseline r).

Section stack.

Variable stack_from_product : ASFProduct → result (list ASFProduct).
Variable parse_date : string → result Z.

(** [search_results[-1]]. *)
Definition last_result (search_results : list ASFProduct) : result ASFProduct :=
  match last search_results with
  | Some reference => Ok reference
  | None => Raise IndexError
  end.

(** [baseline_results[0].properties.keys()], read for the column names. *)
Definition first_keys (baseline_results : list ASFProduct) : result unit :=
  match baseline_results with
  | [] => Raise IndexError
  | _ :: _ => Ok tt
  end.

(** One row of [data], with [parse_date] applied to its start time. *)
Definition parsed (scene : ASFProduct) : result row :=
  t ← parse_date (startTime scene);
  mret (Row (sceneName scene) t (temporalBaseline scene)).

(** The cell: the stack of the last search result, as a table, cut to the
    rows with [stack_start <= startTime <= stack_end]. *)
Definition stack (stack_start stack_end : Z) (search_results : list ASFProduct)
    : result (list row) :=
  reference ← last_result search_results;
  baseline_results ← stack_from_product reference;
  _ ← first_keys baseline_results;
  rows ← mapM parsed baseline_results;
  mret (filter (λ r, stack_start ≤ time r ∧ time r ≤ stack_end) rows).

End stack.

(** A stack of three scenes twelve days apart, with instants in days. *)
Definition three_scenes (reference : ASFProduct) : result (list ASFProduct) :=
  Ok [Product "A" "day 0" 0; Product "B" "day 12" 12; Product "C" "day 24" 24].

Definition day_of (text : string) : result Z :=
  if decide (text = "day 0") then Ok 0
  else if decide (text = "day 12") then Ok 12
  else if decide (text = "day 24") then Ok 24
  else Raise (External "ParserError").

(** *** Properties *)

(** With no search result, or with an empty stack, the cell ends with an
    [IndexError] and no table is built. *)
Lemma stack_of_nothing
    (stack_from_product : ASFProduct → result (list ASFProduct))
    (parse_date : string → result Z) (stack_start stack_end : Z) :
  stack stack_from_product parse_date stack_start stack_end [] = Raise IndexError
  ∧ ∀ search_results reference,
      last search_results = Some reference →
      stack_from_product reference = Ok [] →
      stack stack_from_product parse_date stack_start stack_end search_results
      = Raise IndexError.
Proof.
  split; [done|]. intros search_results reference Hlast Hstack.
  unfold stack, last_result. rewrite Hlast. simpl. by rewrite Hstack.
Qed.

Lemma stack_of_nothing_witness :
  stack (λ _, Ok []) day_of 0 24 [Product "C" "day 24" 24] = Raise IndexError.
Proof.
  apply (proj2 (stack_of_nothing (λ _, Ok []) day_of 0 24)
               [Product "C" "day 24" 24] (Product "C" "day 24" 24)); reflexivity.
Defined.

(** Scenes outside the date range are never paired: every pair formed from
    the table comes from two rows of the baseline stack whose start times
    both lie in [stack_start, stack_end], ends included, and that are more
    than 0 and at most [max_temporal_baseline] days apart. *)
Lemma pairs_within_date_range
    (stack_from_product : ASFProduct → result (list ASFProduct))
    (parse_date : string → result Z) (stack_start stack_end : Z)
    (search_results : list ASFProduct) (rows : list row)
    (max_temporal_baseline : Z) (reference secondary : string) :
  stack stack_from_product parse_date stack_start stack_end search_results = Ok rows →
  (reference, secondary) ∈ Sbas.sbas_pairs (to_scene <$> rows) max_temporal_baseline →
  ∃ r s, r ∈ rows ∧ s ∈ rows
       ∧ name r = reference ∧ name s = secondary
       ∧ stack_start ≤ time r ≤ stack_end
       ∧ stack_start ≤ time s ≤ stack_end
       ∧ 0 < baseline s - baseline r ≤ max_temporal_baseline.
Proof.
  unfold stack.
  destruct (last_result search_results) as [ref|]; simpl; [|done].
  destruct (stack_from_product ref) as [baseline_results|]; simpl; [|done].
  destruct (first_keys baseline_results); simpl; [|done].
  destruct (mapM (parsed parse_date) baseline_results) as [all_rows|]; simpl; [|done].
  intros [= <-]
    (r' & s' & Hr & Hs & Hrn & Hsn & _ & Hb)%Sbas.elem_of_sbas_pairs.
  apply list_elem_of_fmap in Hr as (r & -> & Hr).
  apply list_elem_of_fmap in Hs as (s & -> & Hs).
  exists r, s. simpl in *.
  pose proof Hr as [[? ?] _]%list_elem_of_filter.
  pose proof Hs as [[? ?] _]%list_elem_of_filter.
  split_and!; try done; lia.
Qed.

Lemma pairs_within_date_range_witness :
  ∃ r s, r ∈ [Row "B" 12 12; Row "C" 24 24] ∧ s ∈ [Row "B" 12 12; Row "C" 24 24]
       ∧ name r = "B" ∧ name s = "C"
       ∧ 12 ≤ time r ≤ 24 ∧ 12 ≤ time s ≤ 24
       ∧ 0 < baseline s - baseline r ≤ 24.
Proof.
  apply (pairs_within_date_range three_scenes day_of 12 24
           [Product "C" "day 24" 24] [Row "B" 12 12; Row "C" 24 24] 24 "B" "C").
  - reflexivity.
  - compute_done.
Defined.

End Stack.
